(** * exp/vfs: the file handle of the encrypted virtual file system

    A shallow embedding of [exp/vfs/file.go]: the [File] handle with its
    staging buffer, the operations [newFile], [Seek], [Readdir], [Read],
    [read], [Write], [WriteThumbnail], [ReadThumbnail], [Close] and
    [flush], and the properties of the streaming state machine that
    follow from them; and of the helpers [cleanName], [splitPath] and
    [validateFileName] of the package, which cut paths into names. *)

From stdpp Require Import gmap strings list pretty.
From Stdlib Require Import ZArith.
From Stdlib.Strings Require Import Byte.

Local Open Scope Z_scope.

Module vfs.

(** ** Go values: errors, panics, fixed-width integers *)

(** The error values that [file.go] returns.  [fmt.Errorf] and
    [errors.Wrapf] are kept structured (format string and arguments)
    instead of rendered. *)
Inductive error : Type :=
| io_EOF
| os_ErrPermission
| os_ErrNotExist
| errors_New (msg : string)
| fmt_Errorf_d (format : string) (d : Z)
| fmt_Errorf_w (format : string) (e : error)
| fmt_Errorf_sw (format : string) (s : string) (e : error)
| errors_Wrapf_of (e : error) (format : string).

Global Instance error_eq_dec : EqDecision error.
Proof. solve_decision. Defined.

(** [errors.Is]: the chain of wrapped errors is searched for [target]. *)
Fixpoint errors_Is (err target : error) : bool :=
  bool_decide (err = target) ||
  match err with
  | fmt_Errorf_w _ e | fmt_Errorf_sw _ _ e | errors_Wrapf_of e _ =>
    errors_Is e target
  | _ => false
  end.

(** [errors.Wrapf] of [github.com/pkg/errors]: [nil] stays [nil]. *)
Definition errors_Wrapf (err : option error) (format : string)
  : option error :=
  match err with
  | None => None
  | Some e => Some (errors_Wrapf_of e format)
  end.

(** A call either returns, panics, or is cut off by the fuel that bounds
    its loop. *)
Inductive exec (A : Type) : Type :=
| Done (a : A)
| Panic (msg : string)
| OutOfFuel.
Global Arguments Done {A} a.
Global Arguments Panic {A} msg.
Global Arguments OutOfFuel {A}.

Global Instance exec_ret : MRet exec := @Done.
Global Instance exec_bind : MBind exec := λ A B k m,
  match m with
  | Done a => k a
  | Panic msg => Panic msg
  | OutOfFuel => OutOfFuel
  end.

(** [int64] arithmetic wraps around. *)
Definition wrap64 (z : Z) : Z := (z + 2 ^ 63) mod 2 ^ 64 - 2 ^ 63.

(** ** [bytes.Buffer]

    The Go standard library's buffer, as its documentation has it: the
    state is the unread portion.  [Write] appends, [Read] hands out and
    drops the oldest bytes and reports [io.EOF] on an empty buffer unless
    the destination has length zero, [Reset] empties it.  [Grow] only
    reserves capacity for further writes: it panics on a negative count
    and otherwise leaves the unread bytes as they are. *)
Definition Buffer : Type := list byte.

Definition Buffer_Len (b : Buffer) : Z := Z.of_nat (length b).

Definition Buffer_Bytes (b : Buffer) : list byte := b.

Definition Buffer_Write (b : Buffer) (p : list byte) : Buffer := b ++ p.

Definition Buffer_Read (b : Buffer) (n : nat)
  : Buffer * list byte * option error :=
  match b with
  | [] => ([], [], match n with O => None | S _ => Some io_EOF end)
  | _ :: _ => (drop n b, take n b, None)
  end.

Definition Buffer_Reset (b : Buffer) : Buffer := [].

Definition Buffer_Grow (b : Buffer) (n : Z) : exec Buffer :=
  if n <? 0 then Panic "bytes.Buffer.Grow: negative count" else Done b.

(** ** Open-mode flags

    [type Flag int], with the constants of package [os]:
    [O_RDONLY = 0], [O_WRONLY = 1], [O_CREATE = 0x40]. *)
Definition Flag : Type := Z.

Definition os_O_RDONLY : Z := 0.
Definition os_O_WRONLY : Z := 1.
Definition os_O_CREATE : Z := 64.

Definition ReadOnly : Flag := os_O_RDONLY.
Definition WriteOnly : Flag := os_O_WRONLY.
Definition Create : Flag := os_O_CREATE.

(** [io.SeekStart], [io.SeekCurrent], [io.SeekEnd]. *)
Definition io_SeekStart : Z := 0.
Definition io_SeekCurrent : Z := 1.
Definition io_SeekEnd : Z := 2.

(** ** Nodes of the directory tree *)

(** Modelled from the spec: [FileInfo] (its declaration is not among the
    sources).  A node has the [is_dir] flag, for files the total byte size,
    the ordered page identifiers and the detected content type, for
    directories the ordered child references, and the transient [busy]
    flag.  Nodes are referred to by pointer; a pointer is a key of the
    node heap of the file system. *)
Record FileInfo : Type := mkFileInfo {
  isDir : bool;
  sz : Z;
  Pages : list string;
  Files : list positive;
  busy : bool;
  mimeType : string
}.

Global Instance FileInfo_inhabited : Inhabited FileInfo :=
  populate (mkFileInfo false 0 [] [] false "").

(** Modelled from the spec: the accessors [IsDir], [Size] and [MIMEType]
    of a node read the [is_dir] flag, the total byte size and the detected
    content type. *)
Definition IsDir (i : FileInfo) : bool := isDir i.
Definition Size (i : FileInfo) : Z := sz i.
Definition MIMEType (i : FileInfo) : string := mimeType i.

(** Modelled from the spec: [SetMIMEType] records the detected content
    type. *)
Definition SetMIMEType (i : FileInfo) (t : string) : FileInfo :=
  mkFileInfo (isDir i) (sz i) (Pages i) (Files i) (busy i) t.

(** The assignment [info.busy = b]. *)
Definition set_busy (i : FileInfo) (b : bool) : FileInfo :=
  mkFileInfo (isDir i) (sz i) (Pages i) (Files i) b (mimeType i).

(** Modelled from the spec: [truncate] resets the node's prior page list
    and size. *)
Definition truncate (i : FileInfo) : FileInfo :=
  mkFileInfo (isDir i) 0 [] (Files i) (busy i) (mimeType i).

(** Modelled from the spec: [addPage] appends the page identifier to the
    node's page list. *)
Definition addPage (i : FileInfo) (page : string) : FileInfo :=
  mkFileInfo (isDir i) (sz i) (Pages i ++ [page]) (Files i) (busy i)
    (mimeType i).

(** Modelled from the spec: [setSize] sets the node's size. *)
Definition setSize (i : FileInfo) (n : Z) : FileInfo :=
  mkFileInfo (isDir i) n (Pages i) (Files i) (busy i) (mimeType i).

(** ** The file system *)

(** Modelled from the spec: [FileSystem] (its declaration is not among the
    sources).  It fixes the page size, owns the blob store, holds the
    directory tree in memory and persists it as one snapshot.  [storage]
    is what the blob store ([KVStorage]) holds: [Get] of a missing key is
    [os.ErrNotExist].  [uuids] counts the page identifiers drawn so
    far. *)
Record FileSystem : Type := mkFileSystem {
  pageSize : Z;
  storage : gmap string (list byte);
  nodes : gmap positive FileInfo;
  persisted : gmap positive FileInfo;
  uuids : nat
}.

Definition storage_Get (fs : FileSystem) (key : string)
  : error + list byte :=
  match storage fs !! key with
  | Some val => inr val
  | None => inl os_ErrNotExist
  end.

(** One more identifier has been drawn. *)
Definition next_uuid (fs : FileSystem) : FileSystem :=
  mkFileSystem (pageSize fs) (storage fs) (nodes fs) (persisted fs)
    (S (uuids fs)).

(** Dereference and update of a node pointer. *)
Definition deref (fs : FileSystem) (p : positive) : FileInfo :=
  nodes fs !!! p.

Definition update (fs : FileSystem) (p : positive)
    (g : FileInfo → FileInfo) : FileSystem :=
  mkFileSystem (pageSize fs) (storage fs)
    (<[p := g (deref fs p)]> (nodes fs)) (persisted fs) (uuids fs).

(** The collaborators outside this package and the methods whose bodies
    are not among the sources: the page codec of the file system, the
    identifier generator ([uuid.NewString], the n-th identifier drawn),
    content-type detection, the serialized listing of a directory, and
    the failures of the blob store and of the persistence of the tree:
    the error, if any, with which [Put] of a key and a value and
    [SaveFileTree] return in a state of the file system. *)
Class Collaborators : Type := {
  EncryptPage : list byte → error + list byte;
  DecryptPage : list byte → error + list byte;
  uuid_NewString : nat → string;
  DetectContentType : list byte → string;
  DirContent : FileInfo → list byte;
  storage_Put_error : FileSystem → string → list byte → option error;
  SaveFileTree_error : FileSystem → option error
}.

Section Store.
Context {ext : Collaborators}.

(** Modelled from the spec: [Put] of the blob store is [ok] or an error
    ([KVStorage.Put] returns [error]); a [Put] that fails stores
    nothing. *)
Definition storage_Put (fs : FileSystem) (key : string) (val : list byte)
  : FileSystem * option error :=
  match storage_Put_error fs key val with
  | Some err => (fs, Some err)
  | None =>
    (mkFileSystem (pageSize fs) (<[key := val]> (storage fs)) (nodes fs)
       (persisted fs) (uuids fs), None)
  end.

(** Modelled from the spec: [SaveFileTree] re-serializes the whole tree and
    writes it to the snapshot, or fails and leaves the snapshot as it
    was; the busy flag is transient and not persisted. *)
Definition SaveFileTree (fs : FileSystem) : FileSystem * option error :=
  match SaveFileTree_error fs with
  | Some err => (fs, Some err)
  | None =>
    (mkFileSystem (pageSize fs) (storage fs) (nodes fs)
       ((λ i, set_busy i false) <$> nodes fs) (uuids fs), None)
  end.

End Store.

(** ** The file handle *)

Record File : Type := mkFile {
  buf : Buffer;
  offset : Z;
  info : positive;
  flag : Flag
}.

Definition with_buf (f : File) (b : Buffer) : File :=
  mkFile b (offset f) (info f) (flag f).

Definition with_offset (f : File) (o : Z) : File :=
  mkFile (buf f) o (info f) (flag f).

Section Handle.
Context {ext : Collaborators}.

Definition newFile (vo : FileSystem) (info : positive) (flag : Flag)
  : exec (FileSystem * File) :=
  if negb (Z.land flag ReadOnly =? 0) && negb (Z.land flag WriteOnly =? 0)
  then Panic "invalid flag"
  else
    let f := mkFile [] 0 info flag in
    if negb (Z.land flag WriteOnly =? 0)
    then Done (update vo info (λ i, set_busy i true), f)
    else Done (vo, f).

(** The [switch whence] of [Seek]: the absolute position, or [None] in
    the [default] case. *)
Definition seek_abs (fs : FileSystem) (f : File) (offset' : Z) (whence : Z)
  : option Z :=
  let i := deref fs (info f) in
  if whence =? io_SeekStart then Some offset'
  else if whence =? io_SeekCurrent then Some (wrap64 (offset f + offset'))
  else if whence =? io_SeekEnd then Some (wrap64 (Size i + offset'))
  else None.

(** [Seek] returns the handle, the position and the error. *)
Definition Seek (fs : FileSystem) (f : File) (offset' : Z) (whence : Z)
  : File * Z * option error :=
  let i := deref fs (info f) in
  if IsDir i then (f, 0, Some (errors_New "cannot seek dir"))
  else if negb (Z.land (flag f) WriteOnly =? 0)
  then (f, 0, Some (errors_New "cannot seek in write mode"))
  else if Size i <=? offset' then (f, offset f, Some io_EOF)
  else
    match seek_abs fs f offset' whence with
    | None => (f, offset f, Some (fmt_Errorf_d "invalid whence: %d" whence))
    | Some abs =>
      if abs <? 0
      then (f, offset f, Some (fmt_Errorf_d "negative position: %d" abs))
      else if Size i <? abs
      then (f, offset f, Some (fmt_Errorf_d "overflow: %d" abs))
      else
        let f := with_buf f (Buffer_Reset (buf f)) in
        let f := with_offset f abs in
        (f, offset f, None)
    end.

(** [Readdir] returns the children (as node pointers) and the error. *)
Definition Readdir (fs : FileSystem) (f : File) (count : Z)
  : list positive * option error :=
  let i := deref fs (info f) in
  if negb (IsDir i) then ([], Some (errors_New "not dir"))
  else (Files i, None).

(** The body of [if f.buf.Len() == 0 { ... }] in [read]: one page is
    loaded into the staging buffer.  The result is the error that makes
    [read] return, or the handle with its buffer filled. *)
Definition load_page (fs : FileSystem) (f : File) : exec (error + File) :=
  let i := deref fs (info f) in
  if pageSize fs =? 0 then Panic "integer divide by zero"
  else
    let pageIndex := wrap64 (Z.quot (offset f) (pageSize fs)) in
    if (pageIndex <? 0) || (Z.of_nat (length (Pages i)) <=? pageIndex)
    then Panic "index out of range"
    else
      match Pages i !! Z.to_nat pageIndex with
      | None => Panic "index out of range"
      | Some page =>
        match storage_Get fs page with
        | inl err =>
          if errors_Is err os_ErrNotExist then Done (inl io_EOF)
          else Done (inl (fmt_Errorf_sw "load page %s: %w" page err))
        | inr data =>
          match DecryptPage data with
          | inl err => Done (inl (fmt_Errorf_w "decrypt: %w" err))
          | inr data =>
            let b := Buffer_Write (buf f) data in
            b ← Buffer_Grow b (Z.rem (offset f) (pageSize fs));
            Done (inr (with_buf f b))
          end
        end
      end.

(** [read] with a destination of length [n]: the handle, the bytes
    delivered and the error. *)
Definition read (fs : FileSystem) (f : File) (n : nat)
  : exec (File * list byte * option error) :=
  let i := deref fs (info f) in
  if Size i <=? offset f then Done (f, [], Some io_EOF)
  else
    loaded ← (if Buffer_Len (buf f) =? 0 then load_page fs f
              else Done (inr f));
    match loaded with
    | inl err => Done (f, [], Some err)
    | inr f =>
      let '(b, data, err) := Buffer_Read (buf f) n in
      let f := with_buf f b in
      let f := with_offset f (wrap64 (offset f + Z.of_nat (length data))) in
      let err :=
        match err with
        | Some e => if errors_Is e io_EOF then None else Some e
        | None => None
        end in
      Done (f, data, err)
    end.

(** The loop [for nRead < nExpected] of [Read]; [out] is [p[:nRead]]. *)
Fixpoint Read_loop (fuel : nat) (fs : FileSystem) (f : File)
    (nExpected : nat) (out : list byte)
  : exec (File * list byte * option error) :=
  if (length out <? nExpected)%nat then
    match fuel with
    | O => OutOfFuel
    | S fuel =>
      '(f, data, err) ← read fs f (nExpected - length out)%nat;
      match err with
      | Some e => Done (f, out, Some e)
      | None => Read_loop fuel fs f nExpected (out ++ data)
      end
    end
  else Done (f, out, None).

(** [Read] with a destination of length [n].  Every turn of the loop that
    returns no error delivers at least one byte unless the page it loaded
    is empty, where the source turns forever; [n] turns are enough
    otherwise. *)
Definition Read (fs : FileSystem) (f : File) (n : nat)
  : exec (File * list byte * option error) :=
  if negb (Z.land (flag f) WriteOnly =? 0)
  then Done (f, [], Some os_ErrPermission)
  else
    let i := deref fs (info f) in
    if IsDir i then
      data ← (if offset f <? Size i then
                if (offset f <? 0)
                   || (Z.of_nat (length (DirContent i)) <? offset f)
                then Panic "slice bounds out of range"
                else Done (take n (drop (Z.to_nat (offset f)) (DirContent i)))
              else Done []);
      let f := with_offset f (wrap64 (offset f + Z.of_nat (length data))) in
      if Size i <=? offset f then Done (f, data, Some io_EOF)
      else Done (f, data, None)
    else Read_loop n fs f n [].

(** The body of [if n > 0 { ... }] in [flush]: one page of plaintext
    [data] leaves the handle. *)
Definition flush_page (fs : FileSystem) (f : File) (data : list byte)
  : FileSystem * File * option error :=
  let fs := if offset f =? 0 then update fs (info f) truncate else fs in
  let f := with_offset f (wrap64 (offset f + Z.of_nat (length data))) in
  let page := uuid_NewString (uuids fs) in
  let fs := next_uuid fs in
  match EncryptPage data with
  | inl er => (fs, f, Some (fmt_Errorf_w "encrypt: %w" er))
  | inr data =>
    match storage_Put fs page data with
    | (fs, Some er) => (fs, f, Some (fmt_Errorf_w "put: %w" er))
    | (fs, None) =>
      let fs := update fs (info f) (λ i, addPage i page) in
      (fs, f, None)
    end
  end.

(** The loop [for all || int64(f.buf.Len()) >= f.fs.pageSize] of [flush].
    The error is the one a [return] inside the loop carries; [None] means
    the loop was left by its condition or by [break]. *)
Fixpoint flush_loop (fuel : nat) (all : bool) (fs : FileSystem) (f : File)
  : exec (FileSystem * File * option error) :=
  if all || (pageSize fs <=? Buffer_Len (buf f)) then
    match fuel with
    | O => OutOfFuel
    | S fuel =>
      if pageSize fs <? 0 then Panic "makeslice: len out of range"
      else
        let '(b, data, err) := Buffer_Read (buf f) (Z.to_nat (pageSize fs)) in
        let f := with_buf f b in
        let '(fs, f, er) :=
          match data with
          | [] => (fs, f, None)
          | _ :: _ => flush_page fs f data
          end in
        match er with
        | Some er => Done (fs, f, Some er)
        | None =>
          match err with
          | Some err =>
            if bool_decide (err ≠ io_EOF) then Done (fs, f, Some err)
            else Done (fs, f, None)
          | None => flush_loop fuel all fs f
          end
        end
    end
  else Done (fs, f, None).

(** [flush].  With a positive page size every turn of the loop takes at
    least one byte out of the buffer or finds it empty and breaks, so one
    turn more than the buffer has bytes is enough. *)
Definition flush (fs : FileSystem) (f : File) (all : bool)
  : exec (FileSystem * File * option error) :=
  let i := deref fs (info f) in
  let fs :=
    if (0 <? Buffer_Len (buf f))
       && ((offset f =? 0) || bool_decide (MIMEType i = ""))
    then update fs (info f)
           (λ i, SetMIMEType i (DetectContentType (Buffer_Bytes (buf f))))
    else fs in
  '(fs, f, err) ← flush_loop (S (length (buf f))) all fs f;
  match err with
  | Some err => Done (fs, f, Some err)
  | None =>
    if all then
      let fs := update fs (info f) (λ i, setSize i (offset f)) in
      match SaveFileTree fs with
      | (fs, Some err) =>
        Done (fs, f, Some (fmt_Errorf_w "save file info list: %w" err))
      | (fs, None) => Done (fs, f, None)
      end
    else Done (fs, f, None)
  end.

(** [Write] returns the file system, the handle, the count and the
    error. *)
Definition Write (fs : FileSystem) (f : File) (p : list byte)
  : exec (FileSystem * File * Z * option error) :=
  if Z.land (flag f) WriteOnly =? 0
  then Done (fs, f, 0, Some os_ErrPermission)
  else
    let f := with_buf f (Buffer_Write (buf f) p) in
    '(fs, f, err) ← flush fs f false;
    match err with
    | Some err =>
      let n := Z.of_nat (length p) - Buffer_Len (buf f) in
      let n := if n <? 0 then 0 else n in
      Done (fs, f, n, Some err)
    | None => Done (fs, f, Z.of_nat (length p), None)
    end.

Definition Close (fs : FileSystem) (f : File)
  : exec (FileSystem * File * option error) :=
  let fs := update fs (info f) (λ i, set_busy i false) in
  if negb (Z.land (flag f) WriteOnly =? 0) && (0 <? Buffer_Len (buf f))
  then flush fs f true
  else
    let f := with_offset f 0 in
    Done (fs, f, None).

(** [Info] returns the node the handle refers to. *)
Definition Info (f : File) : positive := info f.

End Handle.

(** ** Callers, invariants and sample data *)

Section Callers.
Context {ext : Collaborators}.

(** A caller that writes the chunks one after the other and keeps what
    each [Write] returned. *)
Fixpoint Writes (fs : FileSystem) (f : File) (chunks : list (list byte))
  : exec (FileSystem * File * list (Z * option error)) :=
  match chunks with
  | [] => Done (fs, f, [])
  | p :: chunks =>
    '(fs, f, n, err) ← Write fs f p;
    '(fs, f, rs) ← Writes fs f chunks;
    Done (fs, f, (n, err) :: rs)
  end.

(** The [k]-th run of [P] bytes of [B]: what page [k] of a file with
    content [B] holds. *)
Definition page_at (P : nat) (B : list byte) (k : nat) : list byte :=
  take P (drop (k * P) B).

(** The first [k] pages of [B] are in the store under the identifiers
    drawn from the [u0]-th on, and the node lists them in order. *)
Definition stored (u0 : nat) (nd : positive) (P : nat) (B : list byte)
    (k : nat) (fs : FileSystem) : Prop :=
  pageSize fs = Z.of_nat P
  ∧ uuids fs = (u0 + k)%nat
  ∧ Pages (deref fs nd) = uuid_NewString <$> seq u0 k
  ∧ ∀ j : nat, (j < k)%nat →
      ∃ c, storage fs !! uuid_NewString (u0 + j) = Some c
           ∧ EncryptPage (page_at P B j) = inr c.

(** A write handle on [nd] that has taken the bytes [B] and has flushed
    [k] full pages of them. *)
Definition writing (nd : positive) (P : nat) (B : list byte) (k : nat)
    (f : File) : Prop :=
  info f = nd
  ∧ Z.land (flag f) WriteOnly ≠ 0
  ∧ buf f = drop (k * P) B
  ∧ offset f = Z.of_nat (k * P)
  ∧ (k * P ≤ length B)%nat.

(** A read handle on [nd] at offset [o] of the content [B] whose staging
    buffer holds what is left of the pages before page [n]. *)
Definition reading (nd : positive) (P : nat) (B : list byte) (n o : nat)
    (f : File) : Prop :=
  info f = nd
  ∧ Z.land (flag f) WriteOnly = 0
  ∧ offset f = Z.of_nat o
  ∧ (o ≤ length B)%nat
  ∧ (o ≤ n * P)%nat
  ∧ buf f = drop o (take (n * P) B).

End Callers.

(** Collaborators to run the code with: a page codec that xors every
    byte with a key byte, in place, and a blob store and a persistence
    of the tree that do not fail. *)
Definition xor_byte (k b : byte) : byte :=
  default b (Byte.of_N (N.lxor (Byte.to_N b) (Byte.to_N k))).

Definition sample : Collaborators := {|
  EncryptPage := λ d, inr (xor_byte x5a <$> d);
  DecryptPage := λ d, inr (xor_byte x5a <$> d);
  uuid_NewString := λ n, pretty n;
  DetectContentType := λ _, "text/plain; charset=utf-8"%string;
  DirContent := λ _, [];
  storage_Put_error := λ _ _ _, None;
  SaveFileTree_error := λ _, None
|}.

(** A node as a create leaves it, and a file system that holds one such
    node at pointer 1 and nothing else. *)
Definition new_node : FileInfo := mkFileInfo false 0 [] [] false "".

Definition new_fs (P : Z) : FileSystem :=
  mkFileSystem P ∅ {[1%positive := new_node]} ∅ 0.

(** The file [hello world] written with page size 4 and closed: three
    pages of 4, 4 and 3 bytes. *)
Definition hello : list byte := String.list_byte_of_string "hello world".

Definition hello_fs : FileSystem :=
  mkFileSystem 4
    (<["0"%string := xor_byte x5a <$> String.list_byte_of_string "hell"]>
       (<["1"%string := xor_byte x5a <$> String.list_byte_of_string "o wo"]>
          (<["2"%string := xor_byte x5a <$> String.list_byte_of_string "rld"]>
             ∅)))
    {[1%positive :=
        mkFileInfo false 11 ["0"; "1"; "2"]%string [] false
          "text/plain; charset=utf-8"]}
    {[1%positive :=
        mkFileInfo false 11 ["0"; "1"; "2"]%string [] false
          "text/plain; charset=utf-8"]}
    3.

(** ** Callers that read, and files with content *)

Section Readers.
Context {ext : Collaborators}.

(** The node [nd] is a file with content [B]: its size is the length of
    [B], and its page [j] is stored and decrypts to the [j]-th run of
    [pageSize] bytes of [B]. *)
Definition file_holds (fs : FileSystem) (nd : positive) (B : list byte)
  : Prop :=
  0 < pageSize fs
  ∧ IsDir (deref fs nd) = false
  ∧ Size (deref fs nd) = Z.of_nat (length B)
  ∧ Z.of_nat (length B) < 2 ^ 63
  ∧ ∀ j : nat, (j * Z.to_nat (pageSize fs) < length B)%nat →
      ∃ page c,
        Pages (deref fs nd) !! j = Some page
        ∧ storage fs !! page = Some c
        ∧ DecryptPage c = inr (page_at (Z.to_nat (pageSize fs)) B j).

(** A caller that reads into destinations of the lengths [ns] one after
    the other and keeps what each [Read] returned. *)
Fixpoint Reads (fs : FileSystem) (f : File) (ns : list nat)
  : exec (File * list (list byte * option error)) :=
  match ns with
  | [] => Done (f, [])
  | n :: ns =>
    '(f, data, err) ← Read fs f n;
    '(f, rs) ← Reads fs f ns;
    Done (f, (data, err) :: rs)
  end.

(** What the reads of lengths [ns] return on content [B] from position
    [o] on. *)
Fixpoint slices (B : list byte) (o : nat) (ns : list nat)
  : list (list byte * option error) :=
  match ns with
  | [] => []
  | n :: ns =>
    (take n (drop o B),
     if decide (o + n ≤ length B)%nat then None else Some io_EOF)
    :: slices B ((o + n) `min` length B) ns
  end.

(** A caller that opens a handle on [nd], writes the chunks, and closes
    the handle. *)
Definition write_file (fs : FileSystem) (nd : positive) (flag : Flag)
    (chunks : list (list byte))
  : exec (FileSystem * File * list (Z * option error) * option error) :=
  '(fs, w) ← newFile fs nd flag;
  '(fs, w, rs) ← Writes fs w chunks;
  '(fs, w, err) ← Close fs w;
  Done (fs, w, rs, err).
End Readers.

(** ** Thumbnails *)

Section ThumbnailField.
Context {ext : Collaborators}.

(** Modelled from the spec: the field [Thumbnail] of [FileInfo], the
    identifier of the thumbnail blob of a node, empty while the node has
    none.  The fields are kept beside the node heap, in a map from node
    pointers of their own. *)
Definition Thumbnail (th : gmap positive string) (p : positive) : string :=
  default ""%string (th !! p).

(** [WriteThumbnail] returns the file system, the thumbnail fields and
    the error. *)
Definition WriteThumbnail (fs : FileSystem) (th : gmap positive string)
    (f : File) (b : list byte)
  : FileSystem * gmap positive string * option error :=
  let tb := Thumbnail th (info f) in
  let '(tb, fs) :=
    if bool_decide (tb = ""%string)
    then (uuid_NewString (uuids fs), next_uuid fs)
    else (tb, fs) in
  match EncryptPage b with
  | inl err =>
    (fs, th,
     Some (fmt_Errorf_sw "encrypt %s: %w" (Thumbnail th (info f)) err))
  | inr b =>
    match storage_Put fs tb b with
    | (fs, Some err) =>
      (fs, th,
       Some (fmt_Errorf_sw "write %s: %w" (Thumbnail th (info f)) err))
    | (fs, None) =>
      let th := <[info f := tb]> th in
      let '(fs, err) := SaveFileTree fs in
      (fs, th, errors_Wrapf err "save file tree")
    end
  end.

(** [ReadThumbnail] returns the bytes and the error. *)
Definition ReadThumbnail (fs : FileSystem) (th : gmap positive string)
    (f : File) : list byte * option error :=
  if bool_decide (Thumbnail th (info f) = ""%string)
  then ([], Some os_ErrNotExist)
  else
    match storage_Get fs (Thumbnail th (info f)) with
    | inl err =>
      ([], Some (fmt_Errorf_sw "read %s: %w" (Thumbnail th (info f)) err))
    | inr data =>
      match DecryptPage data with
      | inl err =>
        ([], Some (fmt_Errorf_sw "decrypt %s: %w" (Thumbnail th (info f))
                     err))
      | inr data => (data, None)
      end
    end.

(** The blob identifier that [WriteThumbnail] stores under. *)
Definition thumbnail_key (fs : FileSystem) (th : gmap positive string)
    (f : File) : string :=
  if bool_decide (Thumbnail th (info f) = ""%string)
  then uuid_NewString (uuids fs)
  else Thumbnail th (info f).
End ThumbnailField.

(** ** Names and paths *)

(** Package [strings] of the Go standard library, on byte strings.
    [HasPrefix] is [String.prefix] and [Join] is [String.concat];
    [string_drop n s] is the slice [s[n:]]. *)
Fixpoint string_drop (n : nat) (s : string) : string :=
  match n, s with
  | O, _ => s
  | S n, String _ s => string_drop n s
  | S _, EmptyString => EmptyString
  end.

Definition strings_TrimPrefix (s prefix : string) : string :=
  if String.prefix prefix s then string_drop (String.length prefix) s else s.

Definition strings_HasSuffix (s suffix : string) : bool :=
  (String.length suffix <=? String.length s)%nat
  && String.eqb
       (string_drop (String.length s - String.length suffix) s) suffix.

Definition strings_TrimSuffix (s suffix : string) : string :=
  if strings_HasSuffix s suffix
  then String.substring 0 (String.length s - String.length suffix) s
  else s.

(** [Contains]: [substr] starts at some position of [s]. *)
Fixpoint strings_Contains (s substr : string) : bool :=
  String.prefix substr s
  || match s with
     | EmptyString => false
     | String _ s => strings_Contains s substr
     end.

(** [Split] for a separator that is not empty: [s] is cut at the
    occurrences of [sep], found from the left and not overlapping;
    [skip] counts the bytes of an occurrence still to pass. *)
Fixpoint split_from (sep : string) (skip : nat) (s : string) : list string :=
  match s with
  | EmptyString => [EmptyString]
  | String c s' =>
    match skip with
    | S skip => split_from sep skip s'
    | O =>
      if String.prefix sep s
      then EmptyString :: split_from sep (String.length sep - 1) s'
      else
        match split_from sep 0 s' with
        | seg :: segs => String c seg :: segs
        | [] => [String c EmptyString]
        end
    end
  end.

Definition strings_Split (s sep : string) : list string := split_from sep 0 s.

Section Paths.
(** [filepath.Clean] of the Go standard library; the functions below do
    not depend on what it returns. *)
Variable filepath_Clean : string → string.

Definition cleanName (name : string) : string :=
  let name := filepath_Clean name in
  let name := strings_TrimPrefix name "/" in
  let name := strings_TrimSuffix name "/" in
  name.

Definition splitPath (path : string) : list string :=
  let path := filepath_Clean path in
  let path := strings_TrimPrefix path "/" in
  let path := strings_TrimSuffix path "/" in
  let paths := strings_Split path "/" in
  paths.
End Paths.

Definition validateFileName (name : string) : bool :=
  if String.eqb name "" then false
  else if strings_Contains name "/" then false
  else true.

(** ** More sample data *)

(** Collaborators whose page codec has no key: encryption and
    decryption fail. *)
Definition no_key : Collaborators := {|
  EncryptPage := λ _, inl (errors_New "no key");
  DecryptPage := λ _, inl (errors_New "no key");
  uuid_NewString := λ n, pretty n;
  DetectContentType := λ _, "text/plain; charset=utf-8"%string;
  DirContent := λ _, [];
  storage_Put_error := λ _ _ _, None;
  SaveFileTree_error := λ _, None
|}.

(** Collaborators whose blob store is full, [Put] fails, and
    collaborators for which the snapshot of the tree cannot be written,
    [SaveFileTree] fails. *)
Definition full_store : Collaborators := {|
  EncryptPage := λ d, inr (xor_byte x5a <$> d);
  DecryptPage := λ d, inr (xor_byte x5a <$> d);
  uuid_NewString := λ n, pretty n;
  DetectContentType := λ _, "text/plain; charset=utf-8"%string;
  DirContent := λ _, [];
  storage_Put_error := λ _ _ _, Some (errors_New "store is full");
  SaveFileTree_error := λ _, None
|}.

Definition stale_tree : Collaborators := {|
  EncryptPage := λ d, inr (xor_byte x5a <$> d);
  DecryptPage := λ d, inr (xor_byte x5a <$> d);
  uuid_NewString := λ n, pretty n;
  DetectContentType := λ _, "text/plain; charset=utf-8"%string;
  DirContent := λ _, [];
  storage_Put_error := λ _ _ _, None;
  SaveFileTree_error := λ _, Some (errors_New "snapshot not written")
|}.

(** Collaborators for which the listing of a directory serializes to
    10 bytes, and a file system with a directory of that size at
    pointer 1. *)
Definition listing : Collaborators := {|
  EncryptPage := λ d, inr (xor_byte x5a <$> d);
  DecryptPage := λ d, inr (xor_byte x5a <$> d);
  uuid_NewString := λ n, pretty n;
  DetectContentType := λ _, "text/plain; charset=utf-8"%string;
  DirContent := λ _, String.list_byte_of_string "[{},{},{}]";
  storage_Put_error := λ _ _ _, None;
  SaveFileTree_error := λ _, None
|}.

Definition dir_fs : FileSystem :=
  mkFileSystem 4 ∅ {[1%positive := mkFileInfo true 10 [] [] false ""]} ∅ 0.

(** ** Properties *)

Section Properties.
Context {ext : Collaborators}.

(** Every failing branch of [Seek] returns the handle as it was. *)
Local Ltac seek_fails :=
  split_and!;
  [ split; [done | intros (? & ? & ? & ? & ? & ?); simplify_eq; done || lia]
  | intros ? (? & ? & ? & ? & ?); simplify_eq; done || lia
  | done
  | done ].

(** *** Basic facts *)

Lemma wrap64_small (z : Z) : - 2 ^ 63 ≤ z < 2 ^ 63 → wrap64 z = z.
Proof. intros Hz. unfold wrap64. rewrite Z.mod_small; lia. Qed.

Lemma Buffer_Read_nonempty (b : Buffer) (n : nat) :
  b ≠ [] → Buffer_Read b n = (drop n b, take n b, None).
Proof. by destruct b. Qed.

Lemma Buffer_Read_empty (n : nat) :
  (0 < n)%nat → Buffer_Read [] n = ([], [], Some io_EOF).
Proof. destruct n; [lia|done]. Qed.

Lemma deref_SaveFileTree (fs : FileSystem) (p : positive) :
  deref (SaveFileTree fs).1 p = deref fs p.
Proof. unfold SaveFileTree. by destruct (SaveFileTree_error fs). Qed.

Lemma deref_storage_Put (fs : FileSystem) (key : string) (val : list byte)
    (p : positive) :
  deref (storage_Put fs key val).1 p = deref fs p.
Proof. unfold storage_Put. by destruct (storage_Put_error fs key val). Qed.

Lemma storage_Put_ok (fs : FileSystem) (key : string) (val : list byte) :
  storage_Put_error fs key val = None →
  storage_Put fs key val
  = (mkFileSystem (pageSize fs) (<[key := val]> (storage fs)) (nodes fs)
       (persisted fs) (uuids fs), None).
Proof. intros Hok. unfold storage_Put. by rewrite Hok. Qed.

Lemma SaveFileTree_ok (fs : FileSystem) :
  SaveFileTree_error fs = None →
  SaveFileTree fs
  = (mkFileSystem (pageSize fs) (storage fs) (nodes fs)
       ((λ i, set_busy i false) <$> nodes fs) (uuids fs), None).
Proof. intros Hok. unfold SaveFileTree. by rewrite Hok. Qed.

(** *** Readdir *)

(** C10.  On a directory node [Readdir] returns the complete list of the
    children without an error, whatever [count] is (positive, zero or
    negative), and on any other node it returns the error [not dir]. *)
Theorem Readdir_returns_all_children (fs : FileSystem) (f : File) (count : Z) :
  Readdir fs f count =
    (if IsDir (deref fs (info f))
     then (Files (deref fs (info f)), None)
     else ([], Some (errors_New "not dir")))
  ∧ ∀ count' : Z, Readdir fs f count' = Readdir fs f count.
Proof.
  split; [|reflexivity].
  unfold Readdir. by destruct (IsDir _).
Qed.

(** *** Permission *)

(** C8.  [Read] on a handle whose flag has [WriteOnly] fails with
    [os.ErrPermission], and so does [Write] on a handle whose flag has
    not; either call reports 0 bytes and leaves the handle (offset and
    staging buffer) and the file system as they were. *)
Theorem permission_denied (fs : FileSystem) (f : File) :
  (Z.land (flag f) WriteOnly ≠ 0 →
   ∀ n : nat, Read fs f n = Done (f, [], Some os_ErrPermission))
  ∧ (Z.land (flag f) WriteOnly = 0 →
     ∀ p : list byte, Write fs f p = Done (fs, f, 0, Some os_ErrPermission)).
Proof.
  split.
  - intros Hw n. unfold Read.
    destruct (Z.eqb_spec (Z.land (flag f) WriteOnly) 0); [done|reflexivity].
  - intros Hr p. unfold Write. by rewrite Hr.
Qed.

(** *** Construction *)

(** X15.  [newFile] panics for no flag: [ReadOnly] is 0, so the guard of
    the panic never holds. *)
Lemma newFile_never_panics (vo : FileSystem) (info : positive) (flag : Flag) :
  ∃ r, newFile vo info flag = Done r.
Proof.
  unfold newFile, ReadOnly, os_O_RDONLY. rewrite Z.land_0_r. simpl.
  destruct (negb _); eauto.
Qed.

Lemma newFile_write_mode (vo : FileSystem) (info : positive) (flag : Flag) :
  Z.land flag WriteOnly ≠ 0 →
  newFile vo info flag
  = Done (update vo info (λ i, set_busy i true), mkFile [] 0 info flag).
Proof.
  intros Hw. unfold newFile, ReadOnly, os_O_RDONLY. rewrite Z.land_0_r. simpl.
  by destruct (Z.eqb_spec (Z.land flag WriteOnly) 0).
Qed.

Lemma newFile_read_mode (vo : FileSystem) (info : positive) (flag : Flag) :
  Z.land flag WriteOnly = 0 →
  newFile vo info flag = Done (vo, mkFile [] 0 info flag).
Proof.
  intros Hr. unfold newFile, ReadOnly, os_O_RDONLY.
  by rewrite Z.land_0_r, Hr.
Qed.

(** C9.  [newFile] takes the flag [ReadOnly|WriteOnly]: it does not panic,
    returns a handle in write mode and marks the node busy.  [ReadOnly] is
    0, so the guard [(flag&ReadOnly) != 0 && (flag&WriteOnly) != 0] holds
    for no flag. *)
Theorem newFile_accepts_ReadOnly_with_WriteOnly
    (vo : FileSystem) (info : positive) :
  newFile vo info (Z.lor ReadOnly WriteOnly)
  = Done (update vo info (λ i, set_busy i true),
          mkFile [] 0 info (Z.lor ReadOnly WriteOnly))
  ∧ Z.land (Z.lor ReadOnly WriteOnly) WriteOnly ≠ 0
  ∧ Z.land (Z.lor ReadOnly WriteOnly) ReadOnly = ReadOnly.
Proof. done. Qed.

(** *** The busy flag *)

Lemma deref_update (fs : FileSystem) (p : positive) (g : FileInfo → FileInfo) :
  deref (update fs p g) p = g (deref fs p).
Proof. unfold deref, update. simpl. by rewrite lookup_total_insert_eq. Qed.

Lemma deref_update_ne (fs : FileSystem) (p q : positive)
    (g : FileInfo → FileInfo) :
  p ≠ q → deref (update fs p g) q = deref fs q.
Proof.
  intros Hne. unfold deref, update. simpl. by rewrite lookup_total_insert_ne.
Qed.

(** C6.  With a write handle open on a node, closing a read handle on the
    same node clears the busy flag that the write handle has set, although
    the write handle is still open. *)
Theorem reader_Close_clears_busy_of_writer (fs : FileSystem) (nd : positive) :
  ('(fs1, w) ← newFile fs nd WriteOnly;
   '(fs2, r) ← newFile fs1 nd ReadOnly;
   '(fs3, r, err) ← Close fs2 r;
   Done (busy (deref fs2 nd), busy (deref fs3 nd), err))
  = Done (true, false, None).
Proof.
  unfold newFile, Close, WriteOnly, ReadOnly, os_O_WRONLY, os_O_RDONLY.
  simpl. by rewrite !deref_update.
Qed.

(** *** Seek *)

(** C3, as the code has it.  [Seek] succeeds exactly when the node is a
    file, the handle is not in write mode, the offset argument itself is
    below the size, [whence] is one of the three origins and the absolute
    position lies within [0, size].  On success the staging buffer is
    emptied and the offset is the absolute position, which is returned; on
    every failure the handle, and so its offset, stays as it was; on
    directory nodes and on write handles [Seek] always fails. *)
Theorem Seek_succeeds_iff (fs : FileSystem) (f : File) (off whence : Z) :
  let i := deref fs (info f) in
  let ok (abs : Z) :=
    IsDir i = false ∧ Z.land (flag f) WriteOnly = 0 ∧ off < Size i
    ∧ seek_abs fs f off whence = Some abs ∧ 0 ≤ abs ≤ Size i in
  ((Seek fs f off whence).2 = None ↔ ∃ abs, ok abs)
  ∧ (∀ abs, ok abs →
       Seek fs f off whence = (mkFile [] abs (info f) (flag f), abs, None))
  ∧ ((Seek fs f off whence).2 ≠ None → (Seek fs f off whence).1.1 = f)
  ∧ (IsDir i = true ∨ Z.land (flag f) WriteOnly ≠ 0 →
       (Seek fs f off whence).2 ≠ None).
Proof.
  intros i ok. subst ok. unfold Seek. fold i.
  destruct (IsDir i) eqn:Hdir; simpl; [seek_fails|].
  destruct (Z.eqb_spec (Z.land (flag f) WriteOnly) 0) as [Hw|Hw]; simpl;
    [|seek_fails].
  destruct (Z.leb_spec (Size i) off) as [Hge|Hlt]; simpl; [seek_fails|].
  destruct (seek_abs fs f off whence) as [abs|] eqn:Habs; simpl;
    [|seek_fails].
  destruct (Z.ltb_spec abs 0) as [Hneg|Hnn]; simpl; [seek_fails|].
  destruct (Z.ltb_spec (Size i) abs) as [Hover|Hin]; simpl; [seek_fails|].
  split_and!.
  - split; [intros _|done]. exists abs. split_and!; done || lia.
  - by intros abs' (_ & _ & _ & [= <-] & _).
  - done.
  - intros [?|?]; done.
Qed.

(** *** Close *)

Lemma flush_page_handle (fs : FileSystem) (f : File) (data : list byte) :
  flag (flush_page fs f data).1.2 = flag f
  ∧ info (flush_page fs f data).1.2 = info f.
Proof.
  unfold flush_page. destruct (EncryptPage data); [done|].
  by destruct (storage_Put _ _ _) as [? [?|]].
Qed.

Lemma flush_loop_handle (fuel : nat) (all : bool) :
  ∀ fs f fs' f' err,
    flush_loop fuel all fs f = Done (fs', f', err) →
    flag f' = flag f ∧ info f' = info f.
Proof.
  induction fuel as [|fuel IH]; intros fs f fs' f' err; simpl.
  - destruct (all || _); [done|]. by intros [= <- <- <-].
  - destruct (all || _); [|by intros [= <- <- <-]].
    destruct (pageSize fs <? 0); [done|].
    destruct (Buffer_Read (buf f) _) as [[b data] e].
    destruct data as [|x data].
    + destruct e as [e|].
      * destruct (bool_decide _); by intros [= <- <- <-].
      * intros Hloop. by apply IH in Hloop.
    + pose proof (flush_page_handle fs (with_buf f b) (x :: data)) as [Hf Hi].
      destruct (flush_page fs (with_buf f b) (x :: data)) as [[fs1 f1] er].
      simpl in Hf, Hi. destruct er as [er|].
      * by intros [= <- <- <-].
      * destruct e as [e|].
        -- destruct (bool_decide _); by intros [= <- <- <-].
        -- intros Hloop. apply IH in Hloop as [-> ->]. done.
Qed.

Lemma flush_handle (fs : FileSystem) (f : File) (all : bool) :
  ∀ fs' f' err,
    flush fs f all = Done (fs', f', err) →
    flag f' = flag f ∧ info f' = info f.
Proof.
  intros fs' f' err. unfold flush.
  destruct (flush_loop _ all _ f) as [[[fs1 f1] e]| |] eqn:Hloop; [|done..].
  apply flush_loop_handle in Hloop. cbn.
  destruct e; [|destruct all]; [by intros [= <- <- <-]| |by intros [= <- <- <-]].
  destruct (SaveFileTree _) as [? [?|]]; by intros [= <- <- <-].
Qed.

(** C7, as the code has it.  A handle has no closed state.  [newFile]
    makes, for every flag, a handle with that flag, an empty staging
    buffer and offset 0: a handle in write mode when the flag has
    [WriteOnly] and a handle in read mode otherwise.  [Close] keeps the
    flag and the node of the handle, so the handle stays in its mode.  On
    a handle in read mode [Close] returns no error, clears the busy flag
    of the node, sets the offset to 0 and keeps the staging buffer; when
    that buffer is empty the handle is afterwards the very handle that
    [newFile] makes, and [Read], [Write] and [Seek] on it run as on a
    newly made handle. *)
Theorem Close_keeps_handle_usable (fs : FileSystem) (f : File) :
  (∀ flag : Flag, ∃ fs',
     newFile fs (info f) flag = Done (fs', mkFile [] 0 (info f) flag))
  ∧ (∀ fs' f' err,
       Close fs f = Done (fs', f', err) →
       flag f' = flag f ∧ info f' = info f)
  ∧ (Z.land (flag f) WriteOnly = 0 →
     let fs' := update fs (info f) (λ i, set_busy i false) in
     Close fs f = Done (fs', with_offset f 0, None)
     ∧ (buf f = [] →
        newFile fs' (info f) (flag f) = Done (fs', with_offset f 0))).
Proof.
  split_and!.
  - intros fl. unfold newFile, ReadOnly, os_O_RDONLY.
    rewrite Z.land_0_r. simpl. destruct (negb _); eauto.
  - intros fs' f' err. unfold Close.
    destruct (negb _ && _).
    + apply flush_handle.
    + by intros [= <- <- <-].
  - intros Hr. unfold Close, newFile. rewrite Hr. simpl. split; [done|].
    intros Hb. unfold ReadOnly, os_O_RDONLY. rewrite Z.land_0_r. simpl.
    destruct f as [b o i fl]. simpl in *. by subst b.
Qed.

(** With an empty staging buffer [Close] only clears the busy flag and
    resets the offset, on a write handle too: the size of the node is not
    set and the tree is not persisted. *)
Lemma Close_with_empty_buffer (fs : FileSystem) (f : File) :
  buf f = [] →
  Close fs f
  = Done (update fs (info f) (λ i, set_busy i false), with_offset f 0, None).
Proof. intros Hnil. unfold Close. rewrite Hnil. simpl. by rewrite andb_false_r. Qed.

(** *** What the operations keep of a node

    A property of nodes that [truncate], [addPage] and [SetMIMEType] keep,
    such as being a file or having size 0, is kept by [flush] without
    [all], by [Write] and by a sequence of writes; one that [setSize] and
    the clearing of the busy flag keep as well, such as being a file, is
    kept by [Close] too. *)

Section Kept.
Variable Q : FileInfo → Prop.
Hypothesis Q_truncate : ∀ i, Q i → Q (truncate i).
Hypothesis Q_addPage : ∀ i page, Q i → Q (addPage i page).
Hypothesis Q_SetMIMEType : ∀ i t, Q i → Q (SetMIMEType i t).

Lemma update_keeps (fs : FileSystem) (p q : positive) (g : FileInfo → FileInfo) :
  (∀ i, Q i → Q (g i)) → Q (deref fs q) → Q (deref (update fs p g) q).
Proof.
  intros Hg HQ. destruct (decide (p = q)) as [->|Hne].
  - rewrite deref_update. by apply Hg.
  - by rewrite deref_update_ne.
Qed.

Lemma flush_page_keeps (fs : FileSystem) (f : File) (data : list byte)
    (q : positive) :
  Q (deref fs q) → Q (deref (flush_page fs f data).1.1 q).
Proof.
  intros HQ. unfold flush_page.
  assert (Ht : Q (deref (if offset f =? 0
                         then update fs (info f) truncate else fs) q)).
  { destruct (offset f =? 0); [|done]. by apply update_keeps. }
  destruct (EncryptPage data) as [er|c]; [done|].
  match goal with
  | |- context [storage_Put ?a ?k ?v] =>
    pose proof (deref_storage_Put a k v q) as Hput;
    destruct (storage_Put a k v) as [fs2 [er|]]
  end; cbn [fst snd] in *.
  - by rewrite Hput.
  - apply update_keeps; [|by rewrite Hput]. intros i. apply Q_addPage.
Qed.

Lemma flush_loop_keeps (fuel : nat) (all : bool) (q : positive) :
  ∀ fs f fs' f' err,
    flush_loop fuel all fs f = Done (fs', f', err) →
    Q (deref fs q) → Q (deref fs' q).
Proof.
  induction fuel as [|fuel IH]; intros fs f fs' f' err; simpl.
  - destruct (all || _); [done|]. by intros [= <- <- <-].
  - destruct (all || _); [|by intros [= <- <- <-]].
    destruct (pageSize fs <? 0); [done|].
    destruct (Buffer_Read (buf f) _) as [[b data] e].
    destruct data as [|x data].
    + destruct e as [e|].
      * destruct (bool_decide _); by intros [= <- <- <-].
      * apply IH.
    + pose proof (flush_page_keeps fs (with_buf f b) (x :: data) q) as Hp.
      destruct (flush_page fs (with_buf f b) (x :: data)) as [[fs1 f1] er].
      simpl in Hp. destruct er as [er|].
      * intros [= <- <- <-]. exact Hp.
      * destruct e as [e|].
        -- destruct (bool_decide _); intros [= <- <- <-]; exact Hp.
        -- intros Hloop HQ. apply (IH _ _ _ _ _ Hloop). by apply Hp.
Qed.

Lemma flush_keeps (fs : FileSystem) (f : File) (all : bool) (q : positive) :
  (all = true → ∀ i n, Q i → Q (setSize i n)) →
  ∀ fs' f' err,
    flush fs f all = Done (fs', f', err) →
    Q (deref fs q) → Q (deref fs' q).
Proof.
  intros Hsize fs' f' err. unfold flush.
  set (fs_m := if _ : bool then _ else fs).
  assert (Hm : Q (deref fs q) → Q (deref fs_m q)).
  { subst fs_m. destruct (_ && _); [|done].
    apply update_keeps. intros i. apply Q_SetMIMEType. }
  destruct (flush_loop _ all fs_m f) as [[[fs1 f1] e]| |] eqn:Hloop; [|done..].
  pose proof (flush_loop_keeps _ _ q _ _ _ _ _ Hloop) as Hkeep. cbn.
  destruct e; [|destruct all]; [intros [= <- <- <-] HQ; auto| |
    intros [= <- <- <-] HQ; auto].
  set (fs2 := update fs1 _ _).
  pose proof (deref_SaveFileTree fs2 q) as Hsave.
  destruct (SaveFileTree fs2) as [fs3 [er|]]; simpl in Hsave;
    intros [= <- <- <-] HQ; rewrite Hsave; apply update_keeps; auto.
Qed.

Lemma Write_keeps (fs : FileSystem) (f : File) (p : list byte) (q : positive) :
  ∀ fs' f' n err,
    Write fs f p = Done (fs', f', n, err) →
    Q (deref fs q) → Q (deref fs' q).
Proof.
  intros fs' f' n err. unfold Write.
  destruct (Z.land (flag f) WriteOnly =? 0); [by intros [= <- <- <- <-]|].
  destruct (flush fs _ false) as [[[fs1 f1] e]| |] eqn:Hflush; [|done..].
  pose proof (flush_keeps _ _ false q ltac:(done) _ _ _ Hflush) as Hkeep. cbn.
  destruct e; intros [= <- <- <- <-]; done.
Qed.

Lemma Writes_keeps (chunks : list (list byte)) (q : positive) :
  ∀ fs f fs' f' rs,
    Writes fs f chunks = Done (fs', f', rs) →
    Q (deref fs q) → Q (deref fs' q).
Proof.
  induction chunks as [|p chunks IH]; intros fs f fs' f' rs; simpl.
  - by intros [= <- <- <-].
  - destruct (Write fs f p) as [[[[fs1 f1] n] e]| |] eqn:HW; [|done..].
    pose proof (Write_keeps _ _ _ q _ _ _ _ HW) as Hkeep. cbn.
    destruct (Writes fs1 f1 chunks) as [[[fs2 f2] rs']| |] eqn:HWs; [|done..].
    pose proof (IH _ _ _ _ _ HWs) as Hkeep'. cbn. intros [= <- <- <-]. auto.
Qed.

Lemma Close_keeps (fs : FileSystem) (f : File) (q : positive) :
  (∀ i n, Q i → Q (setSize i n)) →
  (∀ i, Q i → Q (set_busy i false)) →
  ∀ fs' f' err,
    Close fs f = Done (fs', f', err) →
    Q (deref fs q) → Q (deref fs' q).
Proof.
  intros Hsize Hbusy fs' f' err. unfold Close.
  destruct (negb _ && _).
  - intros Hflush HQ.
    apply (flush_keeps _ _ true q (λ _, Hsize) _ _ _ Hflush).
    by apply update_keeps.
  - intros [= <- <- <-] HQ. by apply update_keeps.
Qed.

End Kept.

End Properties.

(** ** The write path

    What [flush], [Write] and [Close] do to a new file, for a positive
    page size, a codec that encrypts every page and decrypts what it
    encrypted, page identifiers that do not repeat, and a blob store and
    a persistence of the tree that do not fail. *)

Section WritePath.
Context {ext : Collaborators}.
Variables (u0 : nat) (nd : positive) (P : nat).
Hypothesis P_pos : (0 < P)%nat.
Hypothesis codec : ∀ d, ∃ c, EncryptPage d = inr c ∧ DecryptPage c = inr d.
Hypothesis uuid_inj : Inj (=) (=) uuid_NewString.
Hypothesis put_ok : ∀ fs key val, storage_Put_error fs key val = None.
Hypothesis save_ok : ∀ fs, SaveFileTree_error fs = None.

Lemma page_at_length (B : list byte) (k : nat) :
  length (page_at P B k) = (P `min` (length B - k * P))%nat.
Proof. unfold page_at. by rewrite length_take, length_drop. Qed.

Lemma page_at_app (B p : list byte) (j : nat) :
  ((j + 1) * P ≤ length B)%nat → page_at P (B ++ p) j = page_at P B j.
Proof.
  intros Hj. unfold page_at.
  rewrite drop_app_le by lia. rewrite take_app_le; [done|].
  rewrite length_drop. lia.
Qed.

Lemma stored_update (B : list byte) (k : nat) (fs : FileSystem)
    (g : FileInfo → FileInfo) :
  (∀ i, Pages (g i) = Pages i) →
  stored u0 nd P B k fs → stored u0 nd P B k (update fs nd g).
Proof.
  intros Hg (Hps & Hu & Hpages & Hst). split_and!; try done.
  by rewrite deref_update, Hg.
Qed.

Lemma stored_app (B p : list byte) (k : nat) (fs : FileSystem) :
  (k * P ≤ length B)%nat →
  stored u0 nd P B k fs → stored u0 nd P (B ++ p) k fs.
Proof.
  intros Hk (Hps & Hu & Hpages & Hst). split_and!; try done.
  intros j Hj. destruct (Hst j Hj) as (c & Hc & Henc). exists c.
  split; [done|]. rewrite page_at_app; [done|]. nia.
Qed.

Lemma flush_page_stored (B : list byte) (k : nat) (fs : FileSystem) (f : File) :
  Z.of_nat (length B) < 2 ^ 63 →
  stored u0 nd P B k fs →
  info f = nd →
  offset f = Z.of_nat (k * P) →
  (k * P ≤ length B)%nat →
  ∃ fs',
    flush_page fs f (page_at P B k)
    = (fs', with_offset f (offset f + Z.of_nat (length (page_at P B k))), None)
    ∧ stored u0 nd P B (S k) fs'.
Proof.
  intros HB Hst Hinfo Hoff Hk. unfold flush_page.
  destruct (codec (page_at P B k)) as (c & Henc & _). rewrite Henc.
  rewrite storage_Put_ok by apply put_ok.
  set (fs_t := if offset f =? 0 then update fs (info f) truncate else fs).
  assert (stored u0 nd P B k fs_t) as (Hps & Hu & Hpages & Hsto).
  { subst fs_t. destruct (Z.eqb_spec (offset f) 0) as [H0|]; [|done].
    assert (k = 0%nat) as ->.
    { destruct k as [|k']; [done|]. simpl in Hoff. lia. }
    destruct Hst as (Hps & Hu & _ & _). rewrite Hinfo.
    split_and!; try done.
    - by rewrite deref_update.
    - intros j Hj. lia. }
  assert (Hseq : uuid_NewString <$> seq u0 (S k)
                 = (uuid_NewString <$> seq u0 k) ++ [uuid_NewString (u0 + k)]).
  { by rewrite seq_S, fmap_app. }
  eexists. split.
  - rewrite wrap64_small; [done|].
    rewrite page_at_length, Hoff. lia.
  - simpl. rewrite Hinfo. split_and!; simpl.
    + done.
    + rewrite Hu. lia.
    + rewrite deref_update. simpl. unfold deref in *. simpl.
      rewrite Hpages, Hu. symmetry. exact Hseq.
    + intros j Hj. rewrite Hu.
      destruct (decide (j = k)) as [->|Hne].
      * exists c. by rewrite lookup_insert_eq.
      * destruct (Hsto j) as (c' & Hc' & Henc'); [lia|].
        exists c'. split; [|done]. rewrite lookup_insert_ne; [done|].
        intros Heq. apply uuid_inj in Heq. lia.
Qed.

Lemma flush_loop_pages (B : list byte) (fuel : nat) :
  Z.of_nat (length B) < 2 ^ 63 →
  ∀ k fs f,
    stored u0 nd P B k fs → writing nd P B k f →
    (length (buf f) < fuel)%nat →
    ∃ fs' f',
      flush_loop fuel false fs f = Done (fs', f', None)
      ∧ stored u0 nd P B (length B / P) fs'
      ∧ writing nd P B (length B / P) f'.
Proof.
  intros HB. induction fuel as [|fuel IH]; intros k fs f Hst Hw Hfuel; [lia|].
  pose proof Hst as (Hps & _). pose proof Hw as (Hinfo & Hflag & Hbuf & Hoff & Hk).
  simpl. unfold Buffer_Len. rewrite Hps.
  assert (Hlen : length (buf f) = (length B - k * P)%nat).
  { by rewrite Hbuf, length_drop. }
  destruct (Z.leb_spec (Z.of_nat P) (Z.of_nat (length (buf f)))) as [Hfull|Hpart].
  - destruct (Z.ltb_spec (Z.of_nat P) 0) as [|_]; [lia|].
    rewrite Nat2Z.id. rewrite Buffer_Read_nonempty.
    2:{ intros Hnil. rewrite Hnil in Hfull. simpl in Hfull. lia. }
    assert (Hdata : take P (buf f) = page_at P B k) by by rewrite Hbuf.
    rewrite Hdata.
    destruct (page_at P B k) as [|x data] eqn:Hpage.
    { apply (f_equal length) in Hpage. rewrite page_at_length in Hpage.
      simpl in Hpage. lia. }
    rewrite <- Hpage.
    destruct (flush_page_stored B k fs (with_buf f (drop P (buf f))) HB Hst)
      as (fs' & Hfp & Hst'); [done..|].
    rewrite Hfp.
    apply (IH (S k)); [done| |].
    + split_and!; simpl; try done.
      * rewrite Hbuf, drop_drop. f_equal. lia.
      * rewrite Hoff, page_at_length. lia.
      * lia.
    + simpl. rewrite length_drop. lia.
  - simpl. eexists _, _. split; [done|].
    assert (k = (length B / P)%nat) as <-; [|done].
    apply (Nat.div_unique _ _ _ (length B - k * P)); lia.
Qed.

Lemma flush_false_pages (B : list byte) (k : nat) (fs : FileSystem) (f : File) :
  Z.of_nat (length B) < 2 ^ 63 →
  stored u0 nd P B k fs → writing nd P B k f →
  ∃ fs' f',
    flush fs f false = Done (fs', f', None)
    ∧ stored u0 nd P B (length B / P) fs'
    ∧ writing nd P B (length B / P) f'.
Proof.
  intros HB Hst Hw. unfold flush.
  set (fs_m := if _ : bool then _ else fs).
  assert (Hst' : stored u0 nd P B k fs_m).
  { subst fs_m. destruct (_ && _); [|done].
    destruct Hw as (-> & _). by apply stored_update. }
  destruct (flush_loop_pages B (S (length (buf f))) HB k fs_m f)
    as (fs' & f' & Hloop & Hst'' & Hw''); [done|done|lia|].
  rewrite Hloop. simpl. eauto.
Qed.

Lemma Write_pages (B p : list byte) (k : nat) (fs : FileSystem) (f : File) :
  Z.of_nat (length (B ++ p)) < 2 ^ 63 →
  stored u0 nd P B k fs → writing nd P B k f →
  ∃ fs' f',
    Write fs f p = Done (fs', f', Z.of_nat (length p), None)
    ∧ stored u0 nd P (B ++ p) (length (B ++ p) / P) fs'
    ∧ writing nd P (B ++ p) (length (B ++ p) / P) f'.
Proof.
  intros HB Hst (Hinfo & Hflag & Hbuf & Hoff & Hk). unfold Write.
  destruct (Z.eqb_spec (Z.land (flag f) WriteOnly) 0) as [|_]; [done|].
  destruct (flush_false_pages (B ++ p) k fs
              (with_buf f (Buffer_Write (buf f) p)) HB)
    as (fs' & f' & Hflush & Hst' & Hw').
  { by apply stored_app. }
  { split_and!; simpl; try done.
    - unfold Buffer_Write. rewrite Hbuf. by rewrite drop_app_le.
    - rewrite length_app. lia. }
  rewrite Hflush. simpl. eauto.
Qed.

Lemma Writes_pages (chunks : list (list byte)) :
  ∀ B fs f,
    Z.of_nat (length (B ++ concat chunks)) < 2 ^ 63 →
    stored u0 nd P B (length B / P) fs → writing nd P B (length B / P) f →
    ∃ fs' f',
      Writes fs f chunks
      = Done (fs', f', (λ p, (Z.of_nat (length p), None)) <$> chunks)
      ∧ stored u0 nd P (B ++ concat chunks)
          (length (B ++ concat chunks) / P) fs'
      ∧ writing nd P (B ++ concat chunks)
          (length (B ++ concat chunks) / P) f'.
Proof.
  induction chunks as [|p chunks IH]; intros B fs f HB Hst Hw; simpl.
  - rewrite app_nil_r. eauto.
  - simpl in HB. rewrite app_assoc in HB.
    destruct (Write_pages B p (length B / P) fs f)
      as (fs1 & f1 & HW & Hst1 & Hw1);
      [rewrite !length_app in *; lia|done..|].
    rewrite HW. simpl.
    destruct (IH (B ++ p) fs1 f1 HB Hst1 Hw1) as (fs' & f' & HWs & Hst' & Hw').
    rewrite HWs. simpl. rewrite app_assoc. eauto.
Qed.

Lemma flush_loop_last (B : list byte) (k fuel : nat) (fs : FileSystem)
    (f : File) :
  Z.of_nat (length B) < 2 ^ 63 →
  stored u0 nd P B k fs → writing nd P B k f →
  (0 < length (buf f) < P)%nat →
  ∃ fs',
    flush_loop (S (S fuel)) true fs f
    = Done (fs', mkFile [] (Z.of_nat (length B)) nd (flag f), None)
    ∧ stored u0 nd P B (S k) fs'.
Proof.
  intros HB Hst (Hinfo & Hflag & Hbuf & Hoff & Hk) Hlen.
  pose proof Hst as (Hps & _).
  assert (Hlen' : length (buf f) = (length B - k * P)%nat).
  { by rewrite Hbuf, length_drop. }
  cbn [flush_loop orb]. rewrite Hps.
  destruct (Z.ltb_spec (Z.of_nat P) 0) as [|_]; [lia|].
  rewrite Nat2Z.id. rewrite Buffer_Read_nonempty.
  2:{ intros Hnil. rewrite Hnil in Hlen. simpl in Hlen. lia. }
  assert (Hdata : take P (buf f) = page_at P B k) by by rewrite Hbuf.
  rewrite Hdata.
  destruct (page_at P B k) as [|x data] eqn:Hpage.
  { apply (f_equal length) in Hpage. rewrite page_at_length in Hpage.
    simpl in Hpage. lia. }
  rewrite <- Hpage.
  destruct (flush_page_stored B k fs (with_buf f (drop P (buf f))) HB Hst)
    as (fs' & Hfp & Hst'); [done..|].
  rewrite Hfp. exists fs'. split; [|done].
  pose proof Hst' as (Hps' & _). rewrite Hps'.
  destruct (Z.ltb_spec (Z.of_nat P) 0) as [|_]; [lia|].
  rewrite Nat2Z.id. simpl buf. rewrite drop_ge by lia.
  rewrite Buffer_Read_empty by done. simpl.
  do 2 f_equal. rewrite <- Hinfo. unfold with_offset, with_buf. simpl.
  rewrite Hoff, page_at_length.
  by replace (P `min` (length B - k * P))%nat with (length B - k * P)%nat
    by lia; rewrite <- Nat2Z.inj_add, Nat.add_comm, Nat.sub_add.
Qed.

Lemma ceil_exact (L k : nat) :
  L = (k * P)%nat → ((L + P - 1) / P = k)%nat.
Proof.
  intros ->. symmetry. apply (Nat.div_unique _ _ _ (P - 1)); lia.
Qed.

Lemma ceil_partial (L : nat) :
  (L mod P ≠ 0)%nat → ((L + P - 1) / P = S (L / P))%nat.
Proof.
  intros Hr. symmetry.
  pose proof (Nat.div_mod_eq L P). pose proof (Nat.mod_upper_bound L P).
  apply (Nat.div_unique _ _ _ (L mod P - 1)); lia.
Qed.

Lemma Close_pages (B : list byte) (fs : FileSystem) (f : File) :
  Z.of_nat (length B) < 2 ^ 63 →
  stored u0 nd P B (length B / P) fs → writing nd P B (length B / P) f →
  ∃ fs' f',
    Close fs f = Done (fs', f', None)
    ∧ stored u0 nd P B ((length B + P - 1) / P) fs'
    ∧ (buf f ≠ [] →
       Size (deref fs' nd) = Z.of_nat (length B)
       ∧ persisted fs' = (λ i, set_busy i false) <$> nodes fs').
Proof.
  intros HB Hst Hw. pose proof Hw as (Hinfo & Hflag & Hbuf & Hoff & Hk).
  unfold Close. rewrite Hinfo.
  set (fs_b := update fs nd _).
  assert (Hst_b : stored u0 nd P B (length B / P) fs_b).
  { by apply stored_update. }
  destruct (Z.eqb_spec (Z.land (flag f) WriteOnly) 0) as [|_]; [done|].
  pose proof (Nat.div_mod_eq (length B) P) as Hdm.
  pose proof (Nat.mod_upper_bound (length B) P) as Hub.
  assert (Hlen : length (buf f) = (length B mod P)%nat).
  { rewrite Hbuf, length_drop. lia. }
  unfold Buffer_Len. simpl negb. cbn [andb].
  destruct (Z.ltb_spec 0 (Z.of_nat (length (buf f)))) as [Hne|He].
  - unfold flush.
    set (fs_m := if _ : bool then _ else fs_b).
    assert (Hst_m : stored u0 nd P B (length B / P) fs_m).
    { subst fs_m. destruct (_ && _); [|done].
      rewrite Hinfo. by apply stored_update. }
    destruct (flush_loop_last B (length B / P) (length (buf f) - 1) fs_m f)
      as (fs' & Hloop & Hst'); [done|done|done|lia|].
    replace (S (length (buf f))) with (S (S (length (buf f) - 1))) by lia.
    rewrite Hloop. cbn [mbind exec_bind].
    rewrite SaveFileTree_ok by apply save_ok.
    eexists _, _. split; [done|]. split.
    + rewrite ceil_partial by lia.
      destruct Hst' as (? & ? & ? & ?). split_and!; try done.
      change (deref (mkFileSystem ?a ?b (nodes ?X) ?d ?e) ?q)
        with (deref X q).
      by rewrite deref_update.
    + intros _. split; [|done].
      change (deref (mkFileSystem ?a ?b (nodes ?X) ?d ?e) ?q)
        with (deref X q).
      by rewrite deref_update.
  - eexists _, _. split; [done|]. split.
    + rewrite (ceil_exact _ (length B / P)) by lia. done.
    + intros Hnil. destruct (buf f); [done|]. simpl in He. lia.
Qed.
End WritePath.

(** ** The read path

    Sequential reading of a file whose pages are all stored and whose size
    is the length of its content. *)

Section ReadPath.
Context {ext : Collaborators}.
Variables (u0 : nat) (nd : positive) (P : nat).
Hypothesis P_pos : (0 < P)%nat.
Hypothesis codec : ∀ d, ∃ c, EncryptPage d = inr c ∧ DecryptPage c = inr d.
Variables (B : list byte) (fs : FileSystem).
Hypothesis B_small : Z.of_nat (length B) < 2 ^ 63.
Hypothesis all_stored : stored u0 nd P B ((length B + P - 1) / P) fs.
Hypothesis size_set : Size (deref fs nd) = Z.of_nat (length B).
Hypothesis is_file : IsDir (deref fs nd) = false.

Lemma lt_ceil (n : nat) :
  (n * P < length B)%nat → (n < (length B + P - 1) / P)%nat.
Proof.
  intros Hn.
  pose proof (Nat.div_mod_eq (length B + P - 1) P) as Hdm.
  pose proof (Nat.mod_upper_bound (length B + P - 1) P) as Hub.
  nia.
Qed.

Lemma take_length_prefix (m : nat) (Y : list byte) :
  take m Y = take (length (take m Y)) Y.
Proof.
  rewrite length_take. destruct (decide (m ≤ length Y)%nat).
  - by rewrite Nat.min_l.
  - rewrite Nat.min_r by lia. by rewrite !take_ge by lia.
Qed.

Lemma load_page_full (n o : nat) (f : File) :
  reading nd P B n o f → buf f = [] → (o < length B)%nat →
  load_page fs f = Done (inr (with_buf f (page_at P B n)))
  ∧ o = (n * P)%nat.
Proof.
  intros (Hinfo & Hflag & Hoff & HoB & Hon & Hbuf) Hnil Hlt.
  destruct all_stored as (Hps & _ & Hpages & Hsto).
  assert (Ho : o = (n * P)%nat).
  { apply (f_equal length) in Hbuf. rewrite Hnil, length_drop, length_take in Hbuf.
    simpl in Hbuf. lia. }
  split; [|done]. subst o.
  unfold load_page. rewrite Hps, Hoff, Hinfo, Hpages.
  destruct (Z.eqb_spec (Z.of_nat P) 0) as [|_]; [lia|].
  rewrite Nat2Z.inj_mul, Z.quot_mul, Z.rem_mul by lia.
  rewrite wrap64_small by lia.
  rewrite length_fmap, length_seq.
  pose proof (lt_ceil n Hlt) as Hn.
  destruct (Z.ltb_spec (Z.of_nat n) 0) as [|_]; [lia|].
  destruct (Z.leb_spec (Z.of_nat ((length B + P - 1) / P)) (Z.of_nat n))
    as [|_]; [lia|].
  simpl orb. cbv iota. rewrite Nat2Z.id, list_lookup_fmap, lookup_seq_lt by done.
  simpl. unfold storage_Get.
  destruct (Hsto n Hn) as (c & -> & Henc).
  destruct (codec (page_at P B n)) as (c' & Henc' & Hdec).
  assert (c' = c) as -> by congruence. rewrite Hdec.
  unfold Buffer_Write. rewrite Hnil. done.
Qed.

Lemma read_drain (n o m : nat) (f : File) :
  reading nd P B n o f → buf f ≠ [] → (1 ≤ m)%nat →
  ∃ b d,
    (1 ≤ d ≤ m)%nat
    ∧ Buffer_Read (buf f) m = (b, take d (drop o B), None)
    ∧ length (take d (drop o B)) = d
    ∧ reading nd P B n (o + d) (mkFile b (Z.of_nat (o + d)) (info f) (flag f)).
Proof.
  intros (Hinfo & Hflag & Hoff & HoB & Hon & Hbuf) Hne Hm.
  rewrite Buffer_Read_nonempty by done.
  assert (Hpre : buf f = take (n * P - o) (drop o B)).
  { rewrite Hbuf, take_drop_commute. do 2 f_equal. lia. }
  assert (Hlen : (1 ≤ length (buf f))%nat).
  { destruct (buf f); [done|simpl; lia]. }
  assert (Hlen' : length (buf f) = ((n * P) `min` length B - o)%nat).
  { by rewrite Hbuf, length_drop, length_take. }
  exists (drop m (buf f)), (m `min` length (buf f))%nat.
  assert (Hdata : take m (buf f)
                  = take (m `min` length (buf f)) (drop o B)).
  { transitivity (take (m `min` length (buf f)) (buf f)).
    { rewrite <- length_take. apply take_length_prefix. }
    rewrite Hpre at 2. rewrite take_take. f_equal. lia. }
  split_and!.
  - lia.
  - lia.
  - by rewrite Hdata.
  - rewrite length_take, length_drop. lia.
  - split_and!; simpl; try done; try lia.
    rewrite Hbuf at 1. rewrite drop_drop.
    destruct (decide (m ≤ length (buf f))%nat).
    + by rewrite Nat.min_l by done.
    + rewrite Nat.min_r by lia.
      rewrite !drop_ge; [done|rewrite length_take; lia..].
Qed.

Lemma read_step (n o m : nat) (f : File) :
  reading nd P B n o f → (o < length B)%nat → (1 ≤ m)%nat →
  ∃ n' f' d,
    (1 ≤ d ≤ m)%nat
    ∧ read fs f m = Done (f', take d (drop o B), None)
    ∧ reading nd P B n' (o + d) f'.
Proof.
  intros Hr Hlt Hm. pose proof Hr as (Hinfo & Hflag & Hoff & HoB & Hon & Hbuf).
  unfold read. rewrite Hinfo, size_set, Hoff.
  destruct (Z.leb_spec (Z.of_nat (length B)) (Z.of_nat o)) as [|_]; [lia|].
  assert (Hdrain : ∀ n' f1,
    reading nd P B n' o f1 → buf f1 ≠ [] →
    ∃ f' d, (1 ≤ d ≤ m)%nat
      ∧ (let '(b, data, err) := Buffer_Read (buf f1) m in
         let f := with_buf f1 b in
         let f := with_offset f (wrap64 (offset f + Z.of_nat (length data))) in
         let err := match err with
                    | Some e => if errors_Is e io_EOF then None else Some e
                    | None => None
                    end in
         Done (f, data, err)) = Done (f', take d (drop o B), None)
      ∧ reading nd P B n' (o + d) f').
  { intros n' f1 Hr1 Hne1.
    destruct (read_drain n' o m f1 Hr1 Hne1 Hm) as (b & d & Hd & HR & Hlen & Hr').
    rewrite HR, Hlen. eexists _, d. split; [done|]. split; [done|].
    destruct Hr1 as (_ & _ & Hoff1 & _). simpl. rewrite Hoff1.
    rewrite wrap64_small.
    - by rewrite <- Nat2Z.inj_add.
    - destruct Hr' as (_ & _ & _ & ? & _). lia. }
  unfold Buffer_Len.
  destruct (Z.eqb_spec (Z.of_nat (length (buf f))) 0) as [Hnil|Hne].
  - assert (Hnil' : buf f = []) by (destruct (buf f); [done|simpl in Hnil; lia]).
    destruct (load_page_full n o f Hr Hnil' Hlt) as (-> & ->). simpl.
    destruct (Hdrain (S n) (with_buf f (page_at P B n))) as (f' & d & ?).
    + split_and!; simpl; try done; try lia.
      unfold page_at. rewrite take_drop_commute. do 2 f_equal. lia.
    + simpl. intros Hp. apply (f_equal length) in Hp.
      rewrite page_at_length in Hp. simpl in Hp. lia.
    + by exists (S n), f', d.
  - simpl. destruct (Hdrain n f Hr) as (f' & d & ?).
    + intros Hp. by rewrite Hp in Hne.
    + by exists n, f', d.
Qed.

Lemma Read_loop_sequential (N fuel : nat) :
  ∀ n o f,
    reading nd P B n o f → (o ≤ N)%nat → (N - o ≤ fuel)%nat →
    ∃ f',
      Read_loop fuel fs f N (take o B)
      = Done (f', take N B,
              if decide (N ≤ length B)%nat then None else Some io_EOF).
Proof.
  induction fuel as [|fuel IH]; intros n o f Hr HoN Hfuel;
    pose proof Hr as (Hinfo & Hflag & Hoff & HoB & Hon & Hbuf);
    simpl; rewrite length_take, Nat.min_l by done;
    (destruct (Nat.ltb_spec o N) as [Hlt|Hge];
     [|assert (o = N) as -> by lia; rewrite decide_True by done; eauto]).
  - lia.
  - destruct (decide (o < length B)%nat) as [HltB|HgeB].
    + destruct (read_step n o (N - o) f Hr HltB) as (n' & f' & d & Hd & -> & Hr');
        [lia|]. simpl. rewrite take_take_drop.
      apply (IH n' (o + d)%nat f' Hr'); lia.
    + assert (o = length B) as -> by lia.
      unfold read. rewrite Hinfo, size_set, Hoff.
      destruct (Z.leb_spec (Z.of_nat (length B)) (Z.of_nat (length B)))
        as [_|]; [|lia].
      simpl. rewrite decide_False by lia.
      rewrite firstn_all, (take_ge B N) by lia. eauto.
Qed.

Lemma Read_from_start (N : nat) (flag : Flag) :
  Z.land flag WriteOnly = 0 →
  ∃ f',
    Read fs (mkFile [] 0 nd flag) N
    = Done (f', take N B,
            if decide (N ≤ length B)%nat then None else Some io_EOF).
Proof.
  intros Hflag. unfold Read. simpl. rewrite Hflag. simpl. rewrite is_file.
  apply (Read_loop_sequential N N 0 0 (mkFile [] 0 nd flag)); [|lia..].
  split_and!; simpl; try done; lia.
Qed.
End ReadPath.

Section Chunking.
Context {ext : Collaborators}.

Lemma page_at_length_cases (P : nat) (B : list byte) (j : nat) :
  (0 < P)%nat → (j < (length B + P - 1) / P)%nat →
  length (page_at P B j)
  = if decide (S j < (length B + P - 1) / P)%nat then P
    else if (length B mod P =? 0)%nat then P else (length B mod P)%nat.
Proof.
  intros HP Hj. rewrite page_at_length.
  pose proof (Nat.div_mod_eq (length B) P) as Hdm.
  pose proof (Nat.mod_upper_bound (length B) P) as Hub.
  destruct (Nat.eqb_spec (length B mod P) 0) as [H0|Hne].
  - rewrite (ceil_exact P HP (length B) (length B / P)) in * by lia.
    case_decide; nia.
  - rewrite (ceil_partial P HP (length B)) in * by done.
    case_decide; nia.
Qed.

Lemma Writes_to_new_file
    (fs : FileSystem) (nd : positive) (flag : Flag)
    (chunks : list (list byte)) :
  let P := Z.to_nat (pageSize fs) in
  let B := concat chunks in
  Z.land flag WriteOnly ≠ 0 →
  0 < pageSize fs →
  Z.of_nat (length B) < 2 ^ 63 →
  (∀ d, ∃ c, EncryptPage d = inr c ∧ DecryptPage c = inr d) →
  Inj (=) (=) uuid_NewString →
  (∀ fs key val, storage_Put_error fs key val = None) →
  Pages (deref fs nd) = [] →
  ∃ fs2 w2,
    Writes (update fs nd (λ i, set_busy i true)) (mkFile [] 0 nd flag) chunks
    = Done (fs2, w2, (λ p, (Z.of_nat (length p), None)) <$> chunks)
    ∧ stored (uuids fs) nd P B (length B / P) fs2
    ∧ writing nd P B (length B / P) w2.
Proof.
  intros P B Hflag HP HL Hcodec Hinj Hput Hnew.
  assert (HPn : (0 < P)%nat) by (subst P; lia).
  assert (HPZ : Z.of_nat P = pageSize fs) by (subst P; lia).
  destruct (Writes_pages (uuids fs) nd P HPn Hcodec Hinj Hput chunks []
              (update fs nd (λ i, set_busy i true)) (mkFile [] 0 nd flag))
    as (fs2 & w2 & HWs & Hst2 & Hw2).
  { done. }
  { rewrite Nat.Div0.div_0_l. split_and!; simpl.
    - by rewrite HPZ.
    - lia.
    - by rewrite deref_update.
    - intros j Hj. lia. }
  { rewrite Nat.Div0.div_0_l. by split_and!. }
  simpl in HWs, Hst2, Hw2. fold B in Hst2, Hw2.
  by exists fs2, w2.
Qed.

Lemma Writes_then_Close
    (fs : FileSystem) (nd : positive) (flag : Flag)
    (chunks : list (list byte)) :
  let P := Z.to_nat (pageSize fs) in
  let B := concat chunks in
  Z.land flag WriteOnly ≠ 0 →
  0 < pageSize fs →
  Z.of_nat (length B) < 2 ^ 63 →
  (∀ d, ∃ c, EncryptPage d = inr c ∧ DecryptPage c = inr d) →
  Inj (=) (=) uuid_NewString →
  (∀ fs key val, storage_Put_error fs key val = None) →
  (∀ fs, SaveFileTree_error fs = None) →
  Pages (deref fs nd) = [] →
  ∃ fs2 w2 fs3 w3,
    Writes (update fs nd (λ i, set_busy i true)) (mkFile [] 0 nd flag) chunks
    = Done (fs2, w2, (λ p, (Z.of_nat (length p), None)) <$> chunks)
    ∧ stored (uuids fs) nd P B (length B / P) fs2
    ∧ writing nd P B (length B / P) w2
    ∧ Close fs2 w2 = Done (fs3, w3, None)
    ∧ stored (uuids fs) nd P B ((length B + P - 1) / P) fs3
    ∧ (buf w2 ≠ [] →
       Size (deref fs3 nd) = Z.of_nat (length B)
       ∧ persisted fs3 = (λ i, set_busy i false) <$> nodes fs3).
Proof.
  intros P B Hflag HP HL Hcodec Hinj Hput Hsave Hnew.
  assert (HPn : (0 < P)%nat) by (subst P; lia).
  destruct (Writes_to_new_file fs nd flag chunks Hflag HP HL Hcodec Hinj Hput
              Hnew)
    as (fs2 & w2 & HWs & Hst2 & Hw2).
  fold P B in Hst2, Hw2.
  destruct (Close_pages (uuids fs) nd P HPn Hcodec Hinj Hput Hsave B fs2 w2 HL Hst2
              Hw2)
    as (fs3 & w3 & HC & Hst3 & Hsize).
  by exists fs2, w2, fs3, w3.
Qed.

(** C4.  Bytes of total length [L] are written in any number of [Write]
    calls through a new write handle (its flag has [WriteOnly]) on a new
    file, with page size [P > 0], a codec that encrypts every page and
    decrypts what it encrypted, page identifiers that do not repeat, and
    a blob store and a persistence of the tree that do not fail ([Put]
    and [SaveFileTree] return no error);
    every [Write] returns the length of its argument and no error.  After
    the writes the staging buffer holds fewer than [P] bytes and the node
    has [L / P] pages, one for every time the buffer reached [P] bytes.
    [Close] returns no error, and afterwards the page list has
    [ceil(L / P)] entries; the page at index [j] is stored and decrypts to
    the [j]-th run of [P] bytes of the content, whose length is [P] except
    for the last page, where it is [L mod P], or [P] when [P] divides
    [L]. *)
Theorem pages_after_Write_and_Close
    (fs : FileSystem) (nd : positive) (flag : Flag)
    (chunks : list (list byte)) :
  let P := pageSize fs in
  let B := concat chunks in
  let L := Z.of_nat (length B) in
  Z.land flag WriteOnly ≠ 0 →
  0 < P →
  L < 2 ^ 63 →
  (∀ d, ∃ c, EncryptPage d = inr c ∧ DecryptPage c = inr d) →
  Inj (=) (=) uuid_NewString →
  (∀ fs key val, storage_Put_error fs key val = None) →
  (∀ fs, SaveFileTree_error fs = None) →
  Pages (deref fs nd) = [] →
  ∃ fs1 w1 fs2 w2 fs3 w3,
    newFile fs nd flag = Done (fs1, w1)
    ∧ Writes fs1 w1 chunks
      = Done (fs2, w2, (λ p, (Z.of_nat (length p), None)) <$> chunks)
    ∧ Buffer_Len (buf w2) < P
    ∧ Z.of_nat (length (Pages (deref fs2 nd))) = L / P
    ∧ Close fs2 w2 = Done (fs3, w3, None)
    ∧ Z.of_nat (length (Pages (deref fs3 nd))) = (L + P - 1) / P
    ∧ ∀ (j : nat) (page : string),
        Pages (deref fs3 nd) !! j = Some page →
        ∃ c, storage fs3 !! page = Some c
             ∧ DecryptPage c = inr (page_at (Z.to_nat P) B j)
             ∧ Z.of_nat (length (page_at (Z.to_nat P) B j))
               = if decide (S j < length (Pages (deref fs3 nd)))%nat then P
                 else if L mod P =? 0 then P else L mod P.
Proof.
  intros P B L Hflag HP HL Hcodec Hinj Hput Hsave Hnew.
  set (Pn := Z.to_nat P).
  assert (HPn : (0 < Pn)%nat) by lia.
  assert (HPZ : Z.of_nat Pn = P) by lia.
  exists (update fs nd (λ i, set_busy i true)), (mkFile [] 0 nd flag).
  rewrite (newFile_write_mode fs nd flag Hflag).
  destruct (Writes_then_Close fs nd flag chunks Hflag HP HL Hcodec Hinj Hput Hsave
              Hnew)
    as (fs2 & w2 & fs3 & w3 & HWs & Hst2 & Hw2 & HC & Hst3 & _).
  fold P Pn B in Hst2, Hw2, Hst3.
  exists fs2, w2, fs3, w3.
  destruct Hst2 as (_ & _ & Hpages2 & _).
  destruct Hw2 as (_ & _ & Hbuf2 & _ & Hk2).
  destruct Hst3 as (_ & _ & Hpages3 & Hsto3).
  pose proof (Nat.div_mod_eq (length B) Pn) as Hdm.
  pose proof (Nat.mod_upper_bound (length B) Pn) as Hub.
  assert (Hceil : Z.of_nat ((length B + Pn - 1) / Pn) = (L + P - 1) / P).
  { rewrite Nat2Z.inj_div, Nat2Z.inj_sub, Nat2Z.inj_add by lia.
    by rewrite HPZ. }
  split_and!; try done.
  - unfold Buffer_Len. rewrite Hbuf2, length_drop. lia.
  - rewrite Hpages2, length_fmap, length_seq, Nat2Z.inj_div. by rewrite HPZ.
  - by rewrite Hpages3, length_fmap, length_seq.
  - intros j page Hj. rewrite Hpages3, length_fmap, length_seq.
    rewrite Hpages3, list_lookup_fmap in Hj.
    destruct (seq _ _ !! j) as [u|] eqn:Hu; [|done].
    apply lookup_seq in Hu as [-> Hlt]. simpl in Hj. injection Hj as <-.
    destruct (Hsto3 j Hlt) as (c & Hc & Henc).
    exists c. split_and!; [done| |].
    + destruct (Hcodec (page_at Pn B j)) as (c' & Henc' & Hdec).
      congruence.
    + rewrite page_at_length_cases by done.
      case_decide; [done|].
      subst L. rewrite <- HPZ, <- Nat2Z.inj_mod.
      destruct (Nat.eqb_spec (length B mod Pn) 0) as [->|Hne]; [done|].
      destruct (Z.eqb_spec (Z.of_nat (length B mod Pn)) 0); [lia|done].
Qed.
(** Round trip, where the page size does not divide the length.  Content
    of length [L] with [L mod P ≠ 0] is written to a new file through a
    new write handle and the handle closed, where [Put] and
    [SaveFileTree] do not fail: the size of the node is [L],
    and a [Read] into [N] bytes through a new read handle returns the
    first [N] bytes of the content, with [io.EOF] exactly when [N] exceeds
    [L]. *)
Theorem round_trip_with_partial_last_page
    (fs : FileSystem) (nd : positive) (wflag rflag : Flag)
    (chunks : list (list byte)) :
  let P := pageSize fs in
  let B := concat chunks in
  let L := Z.of_nat (length B) in
  Z.land wflag WriteOnly ≠ 0 →
  Z.land rflag WriteOnly = 0 →
  0 < P →
  L < 2 ^ 63 →
  (∀ d, ∃ c, EncryptPage d = inr c ∧ DecryptPage c = inr d) →
  Inj (=) (=) uuid_NewString →
  (∀ fs key val, storage_Put_error fs key val = None) →
  (∀ fs, SaveFileTree_error fs = None) →
  Pages (deref fs nd) = [] →
  IsDir (deref fs nd) = false →
  L mod P ≠ 0 →
  ∃ fs1 w1 fs2 w2 fs3 w3 r,
    newFile fs nd wflag = Done (fs1, w1)
    ∧ Writes fs1 w1 chunks
      = Done (fs2, w2, (λ p, (Z.of_nat (length p), None)) <$> chunks)
    ∧ Close fs2 w2 = Done (fs3, w3, None)
    ∧ Size (deref fs3 nd) = L
    ∧ newFile fs3 nd rflag = Done (fs3, r)
    ∧ ∀ N : nat, ∃ r',
        Read fs3 r N
        = Done (r', take N B,
                if decide (N ≤ length B)%nat then None else Some io_EOF).
Proof.
  intros P B L Hwflag Hrflag HP HL Hcodec Hinj Hput Hsave Hnew Hfile Hpart.
  set (Pn := Z.to_nat P).
  assert (HPn : (0 < Pn)%nat) by lia.
  assert (HPZ : Z.of_nat Pn = P) by lia.
  destruct (Writes_then_Close fs nd wflag chunks Hwflag HP HL Hcodec Hinj Hput Hsave
              Hnew)
    as (fs2 & w2 & fs3 & w3 & HWs & Hst2 & Hw2 & HC & Hst3 & Hsize).
  fold P Pn B in Hst2, Hw2, Hst3.
  exists (update fs nd (λ i, set_busy i true)), (mkFile [] 0 nd wflag),
    fs2, w2, fs3, w3, (mkFile [] 0 nd rflag).
  rewrite (newFile_write_mode fs nd wflag Hwflag).
  rewrite (newFile_read_mode fs3 nd rflag Hrflag).
  assert (Hbuf : buf w2 ≠ []).
  { destruct Hw2 as (_ & _ & Hbuf & _ & Hk). intros Hnil.
    apply (f_equal length) in Hnil. rewrite Hbuf, length_drop in Hnil.
    simpl in Hnil. apply Hpart. subst L. rewrite <- HPZ, <- Nat2Z.inj_mod.
    pose proof (Nat.div_mod_eq (length B) Pn). lia. }
  destruct (Hsize Hbuf) as [Hsz _].
  assert (Hfile3 : IsDir (deref fs3 nd) = false).
  { eapply (Close_keeps (λ i, IsDir i = false));
      [done|done|done|done|done|exact HC|].
    eapply (Writes_keeps (λ i, IsDir i = false)); [done|done|done|exact HWs|].
    by rewrite deref_update. }
  split_and!; try done.
  intros N.
  exact (Read_from_start (uuids fs) nd Pn HPn Hcodec B fs3 HL Hst3 Hsz Hfile3
           N rflag Hrflag).
Qed.
(** X19.  Where the page size divides the length, the size is not
    recorded.  Content of length [L] with [L mod P = 0] is written to a
    new file of size 0 through a new write handle and the handle closed,
    with a codec that encrypts every page and a blob store whose [Put]
    does not fail: every [Write] and [Close] return no error, the size
    of the node is still 0, and a [Read] through a new read handle
    returns no byte and [io.EOF]. *)
Theorem whole_pages_leave_size_unset
    (fs : FileSystem) (nd : positive) (wflag rflag : Flag)
    (chunks : list (list byte)) :
  let P := pageSize fs in
  let B := concat chunks in
  let L := Z.of_nat (length B) in
  Z.land wflag WriteOnly ≠ 0 →
  Z.land rflag WriteOnly = 0 →
  0 < P →
  L < 2 ^ 63 →
  (∀ d, ∃ c, EncryptPage d = inr c ∧ DecryptPage c = inr d) →
  Inj (=) (=) uuid_NewString →
  (∀ fs key val, storage_Put_error fs key val = None) →
  Pages (deref fs nd) = [] →
  IsDir (deref fs nd) = false →
  Size (deref fs nd) = 0 →
  L mod P = 0 →
  ∃ fs1 w1 fs2 w2 fs3 w3 r,
    newFile fs nd wflag = Done (fs1, w1)
    ∧ Writes fs1 w1 chunks
      = Done (fs2, w2, (λ p, (Z.of_nat (length p), None)) <$> chunks)
    ∧ Close fs2 w2 = Done (fs3, w3, None)
    ∧ Size (deref fs3 nd) = 0
    ∧ newFile fs3 nd rflag = Done (fs3, r)
    ∧ ∀ N : nat, (0 < N)%nat → Read fs3 r N = Done (r, [], Some io_EOF).
Proof.
  intros P B L Hwflag Hrflag HP HL Hcodec Hinj Hput Hnew Hfile Hsize0 Hwhole.
  set (Pn := Z.to_nat P).
  assert (HPZ : Z.of_nat Pn = P) by lia.
  destruct (Writes_to_new_file fs nd wflag chunks Hwflag HP HL Hcodec Hinj
              Hput Hnew)
    as (fs2 & w2 & HWs & _ & Hw2).
  fold P Pn B in Hw2.
  destruct Hw2 as (Hinfo & _ & Hbuf & _ & _).
  assert (Hnil : buf w2 = []).
  { rewrite Hbuf. apply drop_ge.
    assert (length B mod Pn = 0)%nat.
    { apply Nat2Z.inj. rewrite Nat2Z.inj_mod, HPZ. exact Hwhole. }
    pose proof (Nat.div_mod_eq (length B) Pn). lia. }
  pose proof (Close_with_empty_buffer fs2 w2 Hnil) as HC.
  rewrite Hinfo in HC.
  exists (update fs nd (λ i, set_busy i true)), (mkFile [] 0 nd wflag),
    fs2, w2, (update fs2 nd (λ i, set_busy i false)), (with_offset w2 0),
    (mkFile [] 0 nd rflag).
  rewrite (newFile_write_mode fs nd wflag Hwflag).
  rewrite (newFile_read_mode _ nd rflag Hrflag).
  assert (Hsize2 : Size (deref fs2 nd) = 0).
  { eapply (Writes_keeps (λ i, Size i = 0)); [done|done|done|exact HWs|].
    by rewrite deref_update. }
  assert (Hfile2 : IsDir (deref fs2 nd) = false).
  { eapply (Writes_keeps (λ i, IsDir i = false)); [done|done|done|exact HWs|].
    by rewrite deref_update. }
  set (fs3 := update fs2 nd _) in *.
  assert (Hsize3 : Size (deref fs3 nd) = 0).
  { subst fs3. by rewrite deref_update. }
  assert (Hfile3 : IsDir (deref fs3 nd) = false).
  { subst fs3. by rewrite deref_update. }
  clearbody fs3. split_and!; try done.
  intros N HN. unfold Read. cbn [flag info]. rewrite Hrflag, Hfile3.
  destruct N as [|N]; [lia|].
  cbn [Z.eqb negb Read_loop length Nat.ltb Nat.leb]. unfold read.
  cbn [info offset]. by rewrite Hsize3.
Qed.
End Chunking.

(** ** Reading a file with content

    What [Read] and [read] return on a node that [file_holds] describes,
    from any position and for any sequence of destination lengths. *)

Section ReadContent.
Context {ext : Collaborators}.
Variables (fs : FileSystem) (nd : positive) (B : list byte).
Hypothesis Hholds : file_holds fs nd B.
Let P : nat := Z.to_nat (pageSize fs).

Lemma holds_P_pos : (0 < P)%nat.
Proof. destruct Hholds as (HP & _). subst P. lia. Qed.

Lemma holds_pageSize : pageSize fs = Z.of_nat P.
Proof. destruct Hholds as (HP & _). subst P. lia. Qed.

Lemma page_at_nonempty (j : nat) :
  (j * P < length B)%nat → page_at P B j ≠ [].
Proof.
  intros Hj Hnil. apply (f_equal length) in Hnil.
  rewrite page_at_length in Hnil. pose proof holds_P_pos. simpl in Hnil. lia.
Qed.

(** Loading the page that the offset points into. *)
Lemma load_page_at (o : nat) (f : File) :
  info f = nd → buf f = [] → offset f = Z.of_nat o → (o < length B)%nat →
  load_page fs f = Done (inr (with_buf f (page_at P B (o / P)))).
Proof.
  intros Hinfo Hnil Hoff Hlt.
  pose proof holds_P_pos as HP. pose proof holds_pageSize as HPZ.
  destruct Hholds as (_ & _ & _ & HB & Hpages).
  fold P in Hpages.
  pose proof (Nat.div_mod_eq o P) as Hdm.
  pose proof (Nat.mod_upper_bound o P) as Hub.
  destruct (Hpages (o / P)%nat) as (page & c & Hpage & Hc & Hdec); [nia|].
  unfold load_page. rewrite HPZ, Hoff, Hinfo.
  destruct (Z.eqb_spec (Z.of_nat P) 0) as [|_]; [lia|].
  rewrite Z.quot_div_nonneg, Z.rem_mod_nonneg by lia.
  rewrite <- Nat2Z.inj_div, <- Nat2Z.inj_mod.
  rewrite wrap64_small by lia.
  pose proof (lookup_lt_Some _ _ _ Hpage) as Hlen.
  destruct (Z.ltb_spec (Z.of_nat (o / P)) 0) as [|_]; [lia|].
  destruct (Z.leb_spec (Z.of_nat (length (Pages (deref fs nd))))
              (Z.of_nat (o / P))) as [|_]; [lia|].
  simpl orb. cbv iota. rewrite Nat2Z.id, Hpage.
  unfold storage_Get. rewrite Hc, Hdec.
  unfold Buffer_Write, Buffer_Grow. rewrite Hnil.
  destruct (Z.ltb_spec (Z.of_nat (o `mod` P)) 0) as [|_]; [lia|]. done.
Qed.

(** One [read] with an empty staging buffer: the page that the offset
    points into is loaded and handed out from its first byte on. *)
Lemma read_from_empty_buffer (o m : nat) (f : File) :
  info f = nd → buf f = [] → offset f = Z.of_nat o → (o < length B)%nat →
  (1 ≤ m)%nat →
  read fs f m
  = Done (mkFile (drop m (page_at P B (o / P)))
            (wrap64 (Z.of_nat o
                     + Z.of_nat (length (take m (page_at P B (o / P))))))
            nd (flag f),
          take m (page_at P B (o / P)), None).
Proof.
  intros Hinfo Hnil Hoff Hlt Hm.
  pose proof (Nat.div_mod_eq o P) as Hdm.
  pose proof (Nat.mod_upper_bound o P) as Hub. pose proof holds_P_pos as HP.
  pose proof (load_page_at o f Hinfo Hnil Hoff Hlt) as Hload.
  destruct Hholds as (_ & _ & Hsize & _).
  unfold read. rewrite Hload, Hinfo, Hsize, Hoff, Hnil.
  destruct (Z.leb_spec (Z.of_nat (length B)) (Z.of_nat o)) as [|_]; [lia|].
  simpl. rewrite Buffer_Read_nonempty by (apply page_at_nonempty; nia).
  simpl. unfold with_offset, with_buf. simpl. by rewrite Hinfo, Hoff.
Qed.

Lemma read_in_order (n o m : nat) (f : File) :
  reading nd P B n o f → (o < length B)%nat → (1 ≤ m)%nat →
  ∃ n' f' d,
    (1 ≤ d ≤ m)%nat
    ∧ read fs f m = Done (f', take d (drop o B), None)
    ∧ reading nd P B n' (o + d) f'.
Proof.
  intros Hr Hlt Hm. pose proof Hr as (Hinfo & Hflag & Hoff & HoB & Hon & Hbuf).
  pose proof holds_P_pos as HP.
  destruct Hholds as (_ & _ & Hsize & HB & _).
  unfold read. rewrite Hinfo, Hsize, Hoff.
  destruct (Z.leb_spec (Z.of_nat (length B)) (Z.of_nat o)) as [|_]; [lia|].
  assert (Hdrain : ∀ n' f1,
    reading nd P B n' o f1 → buf f1 ≠ [] →
    ∃ f' d, (1 ≤ d ≤ m)%nat
      ∧ (let '(b, data, err) := Buffer_Read (buf f1) m in
         let f := with_buf f1 b in
         let f := with_offset f (wrap64 (offset f + Z.of_nat (length data))) in
         let err := match err with
                    | Some e => if errors_Is e io_EOF then None else Some e
                    | None => None
                    end in
         Done (f, data, err)) = Done (f', take d (drop o B), None)
      ∧ reading nd P B n' (o + d) f').
  { intros n' f1 Hr1 Hne1.
    destruct (read_drain nd P HP B n' o m f1 Hr1 Hne1 Hm)
      as (b & d & Hd & HR & Hlen & Hr').
    rewrite HR, Hlen. eexists _, d. split; [done|]. split; [done|].
    destruct Hr1 as (_ & _ & Hoff1 & _). simpl. rewrite Hoff1.
    rewrite wrap64_small.
    - by rewrite <- Nat2Z.inj_add.
    - destruct Hr' as (_ & _ & _ & ? & _). lia. }
  unfold Buffer_Len.
  destruct (Z.eqb_spec (Z.of_nat (length (buf f))) 0) as [Hnil|Hne].
  - assert (Hnil' : buf f = []) by (destruct (buf f); [done|simpl in Hnil; lia]).
    assert (Ho : o = (n * P)%nat).
    { apply (f_equal length) in Hbuf.
      rewrite Hnil', length_drop, length_take in Hbuf. simpl in Hbuf. lia. }
    rewrite (load_page_at o f Hinfo Hnil' Hoff Hlt). simpl.
    assert (Hq : (o / P = n)%nat) by (subst o; by apply Nat.div_mul; lia).
    rewrite Hq.
    destruct (Hdrain (S n) (with_buf f (page_at P B n))) as (f' & d & ?).
    + split_and!; simpl; try done; try lia.
      unfold page_at. rewrite take_drop_commute. subst o. do 2 f_equal. lia.
    + simpl. apply page_at_nonempty. lia.
    + by exists (S n), f', d.
  - simpl. destruct (Hdrain n f Hr) as (f' & d & ?).
    + intros Hp. by rewrite Hp in Hne.
    + by exists n, f', d.
Qed.

Lemma Read_loop_in_order (N fuel : nat) :
  ∀ n o f out,
    reading nd P B n o f → (length out ≤ N)%nat →
    (N - length out ≤ fuel)%nat →
    ∃ n' f',
      Read_loop fuel fs f N out
      = Done (f', out ++ take (N - length out) (drop o B),
              if decide (o + (N - length out) ≤ length B)%nat
              then None else Some io_EOF)
      ∧ reading nd P B n' ((o + (N - length out)) `min` length B) f'.
Proof.
  induction fuel as [|fuel IH]; intros n o f out Hr Hout Hfuel;
    pose proof Hr as (Hinfo & Hflag & Hoff & HoB & Hon & Hbuf);
    simpl;
    (destruct (Nat.ltb_spec (length out) N) as [Hlt|Hge];
     [|replace (N - length out)%nat with 0%nat by lia;
       rewrite take_0, app_nil_r, Nat.add_0_r, Nat.min_l by done;
       rewrite decide_True by done; eauto]).
  - lia.
  - destruct (decide (o < length B)%nat) as [HltB|HgeB].
    + destruct (read_in_order n o (N - length out) f Hr HltB)
        as (n' & f' & d & Hd & -> & Hr'); [lia|]. simpl.
      assert (Hdlen : length (take d (drop o B)) = d).
      { rewrite length_take, length_drop.
        destruct Hr' as (_ & _ & _ & ? & _). lia. }
      destruct (IH n' (o + d)%nat f' (out ++ take d (drop o B)) Hr')
        as (n'' & f'' & HL & Hr''); [rewrite length_app; lia..|].
      rewrite HL. rewrite length_app, Hdlen in Hr'' |- *.
      exists n'', f''. split.
      * f_equal. f_equal; [f_equal|].
        -- rewrite <- app_assoc. f_equal.
           replace (N - length out)%nat with (d + (N - (length out + d)))%nat
             by lia.
           by rewrite <- take_take_drop, drop_drop.
        -- repeat case_decide; done || lia.
      * by replace (o + (N - length out))%nat
          with (o + d + (N - (length out + d)))%nat by lia.
    + assert (o = length B) as -> by lia.
      destruct Hholds as (_ & _ & Hsize & _).
      unfold read. rewrite Hinfo, Hsize, Hoff.
      destruct (Z.leb_spec (Z.of_nat (length B)) (Z.of_nat (length B)))
        as [_|]; [|lia].
      simpl. rewrite decide_False by lia.
      rewrite drop_all, take_nil, app_nil_r, Nat.min_r by lia. eauto.
Qed.

Lemma Read_in_order (N n o : nat) (f : File) :
  reading nd P B n o f →
  ∃ n' f',
    Read fs f N
    = Done (f', take N (drop o B),
            if decide (o + N ≤ length B)%nat then None else Some io_EOF)
    ∧ reading nd P B n' ((o + N) `min` length B) f'.
Proof.
  intros Hr. pose proof Hr as (Hinfo & Hflag & _).
  destruct Hholds as (_ & Hfile & _).
  unfold Read. rewrite Hflag, Hinfo, Hfile. simpl.
  destruct (Read_loop_in_order N N n o f [] Hr) as (n' & f' & HL & Hr');
    [simpl; lia..|].
  simpl in HL, Hr'. rewrite Nat.sub_0_r in HL, Hr'. eauto.
Qed.

Lemma read_returns (m : nat) (f : File) :
  info f = nd → 0 ≤ offset f → (1 ≤ m)%nat →
  offset f + Z.of_nat m < 2 ^ 63 →
  (Size (deref fs nd) ≤ offset f ∧ read fs f m = Done (f, [], Some io_EOF))
  ∨ ∃ f' data,
      read fs f m = Done (f', data, None)
      ∧ (1 ≤ length data ≤ m)%nat
      ∧ info f' = nd ∧ flag f' = flag f
      ∧ offset f' = offset f + Z.of_nat (length data).
Proof.
  intros Hinfo Hoff Hm Hsmall.
  pose proof Hholds as (_ & _ & Hsize & HB & _).
  destruct (Z.leb_spec (Size (deref fs nd)) (offset f)) as [Hge|Hlt].
  { left. split; [done|]. unfold read. rewrite Hinfo.
    by destruct (Z.leb_spec (Size (deref fs nd)) (offset f)); [|lia]. }
  right. destruct (buf f) as [|x b] eqn:Hbuf.
  - assert (Ho : offset f = Z.of_nat (Z.to_nat (offset f))) by lia.
    assert (Ho' : (Z.to_nat (offset f) < length B)%nat) by lia.
    rewrite (read_from_empty_buffer _ m f Hinfo Hbuf Ho Ho') by done.
    set (page := page_at P B _).
    assert (page ≠ []).
    { apply page_at_nonempty.
      pose proof (Nat.div_mod_eq (Z.to_nat (offset f)) P). nia. }
    assert (1 ≤ length page)%nat by (destruct page; [done|simpl; lia]).
    eexists _, _. split; [done|]. rewrite length_take. simpl.
    split_and!; try done; try lia.
    rewrite wrap64_small; lia.
  - unfold read. rewrite Hinfo.
    destruct (Z.leb_spec (Size (deref fs nd)) (offset f)); [lia|].
    rewrite Hbuf. simpl. rewrite Buffer_Read_nonempty by by rewrite Hbuf.
    rewrite Hbuf. eexists _, _. split; [done|].
    rewrite length_take. simpl. split_and!; try done; try lia.
    rewrite wrap64_small; lia.
Qed.

Lemma Read_loop_returns (N fuel : nat) :
  ∀ f out,
    info f = nd → 0 ≤ offset f → (length out ≤ N)%nat →
    (N - length out ≤ fuel)%nat →
    offset f + Z.of_nat (N - length out) < 2 ^ 63 →
    ∃ f' out' e,
      Read_loop fuel fs f N out = Done (f', out', e)
      ∧ flag f' = flag f
      ∧ ((e = None ∧ length out' = N)
         ∨ (e = Some io_EOF ∧ (length out' < N)%nat
            ∧ Size (deref fs nd) ≤ offset f')).
Proof.
  induction fuel as [|fuel IH]; intros f out Hinfo Hoff Hout Hfuel Hsmall;
    simpl;
    (destruct (Nat.ltb_spec (length out) N) as [Hlt|Hge];
     [|eexists _, _, _; split; [done|]; split; [done|]; left; split;
       [done|lia]]).
  - lia.
  - destruct (read_returns (N - length out) f) as [[Hsz ->]|Hstep];
      [done|done|lia|lia| |].
    + simpl. eexists _, _, _. split; [done|]. split; [done|]. right. done.
    + destruct Hstep as (f' & data & -> & Hd & Hinfo' & Hflag' & Hoff').
      simpl.
      destruct (IH f' (out ++ data)) as (f'' & out' & e & -> & Hfl & Hres);
        [done|lia|rewrite length_app; lia..|].
      eexists _, _, _. split; [done|]. split; [congruence|done].
Qed.

Lemma Reads_in_order (ns : list nat) :
  ∀ n o f,
    reading nd P B n o f →
    ∃ f', Reads fs f ns = Done (f', slices B o ns).
Proof.
  induction ns as [|N ns IH]; intros n o f Hr; simpl; [eauto|].
  destruct (Read_in_order N n o f Hr) as (n' & f' & -> & Hr'). simpl.
  destruct (IH n' _ f' Hr') as (f'' & ->). simpl. eauto.
Qed.
End ReadContent.

Section ReadTheorems.
Context {ext : Collaborators}.

Lemma Read_loop_done (fuel : nat) (fs : FileSystem) (f : File) (N : nat)
    (out : list byte) :
  (N ≤ length out)%nat → Read_loop fuel fs f N out = Done (f, out, None).
Proof.
  intros Hout.
  destruct fuel; simpl; by destruct (Nat.ltb_spec (length out) N); [lia|].
Qed.

(** X1.  Sequential reads return the content in order.  On a file with
    content [B], the reads of a new read handle into destinations of the
    lengths [ns] return consecutive slices of [B]: each one the next
    [n] bytes, across page boundaries, with [io.EOF] exactly when fewer
    than [n] bytes are left, and no byte after the end. *)
Theorem Reads_return_consecutive_slices
    (fs : FileSystem) (nd : positive) (B : list byte) (flag : Flag)
    (ns : list nat) :
  file_holds fs nd B →
  Z.land flag WriteOnly = 0 →
  ∃ f', Reads fs (mkFile [] 0 nd flag) ns = Done (f', slices B 0 ns).
Proof.
  intros Hholds Hflag.
  apply (Reads_in_order fs nd B Hholds ns 0 0).
  split_and!; simpl; try done; lia.
Qed.

(** X2.  After a [Seek] to the start of page [j], [Read] into [N] bytes
    returns the [N] bytes of the content from [j * pageSize] on, with
    [io.EOF] exactly when fewer than [N] are left. *)
Theorem Read_after_Seek_to_page_boundary
    (fs : FileSystem) (nd : positive) (B : list byte) (f : File)
    (j N : nat) :
  let P := Z.to_nat (pageSize fs) in
  file_holds fs nd B →
  info f = nd →
  Z.land (flag f) WriteOnly = 0 →
  (j * P < length B)%nat →
  ∃ f1 f2,
    Seek fs f (Z.of_nat (j * P)) io_SeekStart = (f1, Z.of_nat (j * P), None)
    ∧ Read fs f1 N
      = Done (f2, take N (drop (j * P) B),
              if decide (j * P + N ≤ length B)%nat then None
              else Some io_EOF).
Proof.
  intros P Hholds Hinfo Hflag Hj.
  pose proof Hholds as (HP & Hfile & Hsize & HB & _).
  assert (HSeek : Seek fs f (Z.of_nat (j * P)) io_SeekStart
                  = (mkFile [] (Z.of_nat (j * P)) nd (flag f),
                     Z.of_nat (j * P), None)).
  { unfold Seek, seek_abs. rewrite Hinfo, Hfile, Hflag, Hsize. simpl.
    destruct (Z.leb_spec (Z.of_nat (length B)) (Z.of_nat (j * P)))
      as [|_]; [lia|].
    destruct (Z.ltb_spec (Z.of_nat (j * P)) 0) as [|_]; [lia|].
    destruct (Z.ltb_spec (Z.of_nat (length B)) (Z.of_nat (j * P)))
      as [|_]; [lia|].
    unfold with_offset, with_buf; simpl. by rewrite ?Hinfo. }
  destruct (Read_in_order fs nd B Hholds N j (j * P)
              (mkFile [] (Z.of_nat (j * P)) nd (flag f)))
    as (n' & f2 & HR & _).
  { split_and!; simpl; try done; try lia.
    symmetry. apply drop_ge. rewrite length_take. fold P. lia. }
  eauto.
Qed.

(** X3.  After a [Seek] to any offset [o] inside the content, a [Read]
    of at most the page's length returns the bytes from the start of
    the page that holds [o], that is from [o / pageSize * pageSize] and
    not from [o], while the offset of the handle goes on from [o]. *)
Theorem Read_after_Seek_starts_at_the_page
    (fs : FileSystem) (nd : positive) (B : list byte) (f : File)
    (o N : nat) :
  let P := Z.to_nat (pageSize fs) in
  file_holds fs nd B →
  info f = nd →
  Z.land (flag f) WriteOnly = 0 →
  (o < length B)%nat →
  (1 ≤ N ≤ length (page_at P B (o / P)))%nat →
  ∃ f1 f2,
    Seek fs f (Z.of_nat o) io_SeekStart = (f1, Z.of_nat o, None)
    ∧ Read fs f1 N = Done (f2, take N (drop (o / P * P) B), None)
    ∧ offset f2 = wrap64 (Z.of_nat o + Z.of_nat N).
Proof.
  intros P Hholds Hinfo Hflag Ho HN.
  pose proof Hholds as (HP & Hfile & Hsize & HB & _).
  exists (mkFile [] (Z.of_nat o) nd (flag f)).
  assert (HSeek : Seek fs f (Z.of_nat o) io_SeekStart
                  = (mkFile [] (Z.of_nat o) nd (flag f), Z.of_nat o, None)).
  { unfold Seek, seek_abs. rewrite Hinfo, Hfile, Hflag, Hsize. simpl.
    destruct (Z.leb_spec (Z.of_nat (length B)) (Z.of_nat o)) as [|_]; [lia|].
    destruct (Z.ltb_spec (Z.of_nat o) 0) as [|_]; [lia|].
    destruct (Z.ltb_spec (Z.of_nat (length B)) (Z.of_nat o)) as [|_]; [lia|].
    unfold with_offset, with_buf; simpl. by rewrite ?Hinfo. }
  rewrite HSeek.
  set (page := page_at P B (o / P)) in *.
  assert (Hdata : take N page = take N (drop (o / P * P) B)).
  { subst page. unfold page_at. rewrite take_take. f_equal.
    rewrite page_at_length in HN. lia. }
  unfold Read. cbn [flag info]. rewrite Hflag, Hfile.
  destruct N as [|N]; [lia|].
  cbn [Z.eqb negb Read_loop length Nat.ltb Nat.leb Nat.sub].
  rewrite (read_from_empty_buffer fs nd B Hholds o (S N)
             (mkFile [] (Z.of_nat o) nd (flag f)) eq_refl eq_refl eq_refl Ho)
    by lia.
  fold P page.
  assert (Hlen : length (take (S N) page) = S N) by (rewrite length_take; lia).
  rewrite Hlen. cbn [mbind exec_bind app].
  rewrite Read_loop_done by lia.
  eexists. split; [done|]. by rewrite <- Hdata.
Qed.

(** X4.  [Read] on a read handle of a file with content, with any
    staging buffer and any offset that is not negative, does not panic
    and does not run on: it returns either as many bytes as asked for
    and no error, or fewer bytes and [io.EOF], with the offset of the
    handle then at or past the size. *)
Theorem Read_returns_all_or_EOF
    (fs : FileSystem) (nd : positive) (B : list byte) (f : File) (N : nat) :
  file_holds fs nd B →
  info f = nd →
  Z.land (flag f) WriteOnly = 0 →
  0 ≤ offset f →
  offset f + Z.of_nat N < 2 ^ 63 →
  ∃ f' data e,
    Read fs f N = Done (f', data, e)
    ∧ ((e = None ∧ length data = N)
       ∨ (e = Some io_EOF ∧ (length data < N)%nat
          ∧ Size (deref fs nd) ≤ offset f')).
Proof.
  intros Hholds Hinfo Hflag Hoff Hsmall.
  pose proof Hholds as (_ & Hfile & _).
  unfold Read. rewrite Hflag, Hinfo, Hfile. simpl.
  destruct (Read_loop_returns fs nd B Hholds N N f [])
    as (f' & out' & e & HL & _ & Hres); simpl; try done; try lia.
  eauto.
Qed.
End ReadTheorems.

Section WrittenFiles.
Context {ext : Collaborators}.

Lemma stored_file_holds (u0 : nat) (nd : positive) (P : nat) (B : list byte)
    (fs : FileSystem) :
  (0 < P)%nat →
  (∀ d, ∃ c, EncryptPage d = inr c ∧ DecryptPage c = inr d) →
  Z.of_nat (length B) < 2 ^ 63 →
  stored u0 nd P B ((length B + P - 1) / P) fs →
  IsDir (deref fs nd) = false →
  Size (deref fs nd) = Z.of_nat (length B) →
  file_holds fs nd B.
Proof.
  intros HP Hcodec HB (Hps & _ & Hpages & Hsto) Hfile Hsize.
  unfold file_holds. rewrite Hps, Nat2Z.id.
  split_and!; try done; try lia.
  intros j Hj. pose proof (lt_ceil P HP B j Hj) as Hlt.
  destruct (Hsto j Hlt) as (c & Hc & Henc).
  destruct (Hcodec (page_at P B j)) as (c' & Henc' & Hdec).
  exists (uuid_NewString (u0 + j)), c. split_and!; [|done|congruence].
  by rewrite Hpages, list_lookup_fmap, lookup_seq_lt.
Qed.

(** X5.  Round trip in chunks.  Content whose length the page size does
    not divide is written in any chunks to a new file and the handle
    closed, with a codec that encrypts every page and decrypts what it
    encrypted, page identifiers that do not repeat, and a blob store and
    a persistence of the tree that do not fail ([Put] and [SaveFileTree]
    return no error): every [Write] returns the length of its chunk, [Close]
    returns no error, the node holds the content, and reading it back
    through a new read handle in destinations of any lengths returns
    the content in consecutive slices. *)
Theorem round_trip_in_chunks
    (fs : FileSystem) (nd : positive) (wflag rflag : Flag)
    (chunks : list (list byte)) (ns : list nat) :
  let P := pageSize fs in
  let B := concat chunks in
  let L := Z.of_nat (length B) in
  Z.land wflag WriteOnly ≠ 0 →
  Z.land rflag WriteOnly = 0 →
  0 < P →
  L < 2 ^ 63 →
  (∀ d, ∃ c, EncryptPage d = inr c ∧ DecryptPage c = inr d) →
  Inj (=) (=) uuid_NewString →
  (∀ fs key val, storage_Put_error fs key val = None) →
  (∀ fs, SaveFileTree_error fs = None) →
  Pages (deref fs nd) = [] →
  IsDir (deref fs nd) = false →
  L mod P ≠ 0 →
  ∃ fs3 w3 r',
    write_file fs nd wflag chunks
    = Done (fs3, w3, (λ p, (Z.of_nat (length p), None)) <$> chunks, None)
    ∧ file_holds fs3 nd B
    ∧ newFile fs3 nd rflag = Done (fs3, mkFile [] 0 nd rflag)
    ∧ Reads fs3 (mkFile [] 0 nd rflag) ns = Done (r', slices B 0 ns).
Proof.
  intros P B L Hwflag Hrflag HP HL Hcodec Hinj Hput Hsave Hnew Hfile Hpart.
  set (Pn := Z.to_nat P).
  assert (HPn : (0 < Pn)%nat) by lia.
  assert (HPZ : Z.of_nat Pn = P) by lia.
  destruct (Writes_then_Close fs nd wflag chunks Hwflag HP HL Hcodec Hinj Hput Hsave
              Hnew)
    as (fs2 & w2 & fs3 & w3 & HWs & Hst2 & Hw2 & HC & Hst3 & Hsize).
  fold P Pn B in Hst2, Hw2, Hst3.
  assert (Hbuf : buf w2 ≠ []).
  { destruct Hw2 as (_ & _ & Hbuf & _ & Hk). intros Hnil.
    apply (f_equal length) in Hnil. rewrite Hbuf, length_drop in Hnil.
    simpl in Hnil. apply Hpart. subst L. rewrite <- HPZ, <- Nat2Z.inj_mod.
    pose proof (Nat.div_mod_eq (length B) Pn). lia. }
  destruct (Hsize Hbuf) as [Hsz _].
  assert (Hfile3 : IsDir (deref fs3 nd) = false).
  { eapply (Close_keeps (λ i, IsDir i = false));
      [done|done|done|done|done|exact HC|].
    eapply (Writes_keeps (λ i, IsDir i = false)); [done|done|done|exact HWs|].
    by rewrite deref_update. }
  assert (Hholds : file_holds fs3 nd B).
  { by apply (stored_file_holds (uuids fs) nd Pn B fs3). }
  destruct (Reads_in_order fs3 nd B Hholds ns 0 0 (mkFile [] 0 nd rflag))
    as (r' & HR).
  { split_and!; simpl; try done; lia. }
  exists fs3, w3, r'. unfold write_file.
  rewrite (newFile_write_mode fs nd wflag Hwflag). cbn [mbind exec_bind].
  rewrite HWs. cbn [mbind exec_bind]. rewrite HC. cbn [mbind exec_bind].
  rewrite (newFile_read_mode fs3 nd rflag Hrflag).
  split_and!; done.
Qed.
End WrittenFiles.

(** ** What [Write] and [Close] return *)

Section Returns.
Context {ext : Collaborators}.

Lemma flush_page_shape (fs : FileSystem) (f : File) (data : list byte) :
  pageSize (flush_page fs f data).1.1 = pageSize fs
  ∧ buf (flush_page fs f data).1.2 = buf f.
Proof.
  unfold flush_page.
  assert (pageSize (if offset f =? 0 then update fs (info f) truncate else fs)
          = pageSize fs) by by destruct (offset f =? 0).
  destruct (EncryptPage data) as [er|c]; [done|].
  match goal with
  | |- context [storage_Put ?a ?k ?v] =>
    assert (Hp : pageSize (storage_Put a k v).1 = pageSize a)
      by (unfold storage_Put; by destruct (storage_Put_error _ _ _));
    destruct (storage_Put a k v) as [fs2 [er|]]
  end; simpl in *; (split; [congruence|done]).
Qed.

Lemma flush_loop_returns (all : bool) (fuel : nat) :
  ∀ fs f,
    0 < pageSize fs → (length (buf f) < fuel)%nat →
    ∃ fs' f' err, flush_loop fuel all fs f = Done (fs', f', err).
Proof.
  induction fuel as [|fuel IH]; intros fs f HP Hfuel; [lia|].
  simpl. destruct (all || _); [|eauto].
  destruct (Z.ltb_spec (pageSize fs) 0) as [|_]; [lia|].
  destruct (buf f) as [|x b] eqn:Hbuf.
  - rewrite Buffer_Read_empty by lia. simpl. eauto.
  - rewrite Buffer_Read_nonempty by done.
    destruct (take (Z.to_nat (pageSize fs)) (x :: b)) as [|y data] eqn:Hdata.
    { apply (f_equal length) in Hdata. rewrite length_take in Hdata.
      simpl in Hdata. lia. }
    pose proof (flush_page_shape fs
                  (with_buf f (drop (Z.to_nat (pageSize fs)) (x :: b)))
                  (y :: data)) as [Hps Hb].
    destruct (flush_page fs _ (y :: data)) as [[fs1 f1] er].
    simpl in Hps, Hb. destruct er as [er|]; [eauto|].
    apply IH; [lia|]. rewrite Hb, length_drop. simpl in *. lia.
Qed.

(** X6.  With a positive page size, [Write] and [Close] return on every
    handle, for every codec and every store, whether encryption, [Put]
    and [SaveFileTree] fail or not; the
    count that [Write] returns lies between 0 and the length of the
    chunk, and is that length when [Write] returns no error. *)
Theorem Write_and_Close_return
    (fs : FileSystem) (f : File) (p : list byte) :
  0 < pageSize fs →
  (∃ fs' f' n err,
     Write fs f p = Done (fs', f', n, err)
     ∧ 0 ≤ n ≤ Z.of_nat (length p)
     ∧ (err = None → n = Z.of_nat (length p)))
  ∧ (∃ fs' f' err, Close fs f = Done (fs', f', err)).
Proof.
  intros HP.
  assert (Hflush : ∀ fs0 f0 all, pageSize fs0 = pageSize fs →
    ∃ fs' f' err, flush fs0 f0 all = Done (fs', f', err)).
  { intros fs0 f0 all Hps. unfold flush.
    set (fs_m := if _ : bool then _ else fs0).
    assert (Hm : pageSize fs_m = pageSize fs).
    { subst fs_m. by destruct (_ && _). }
    destruct (flush_loop_returns all (S (length (buf f0))) fs_m f0)
      as (fs' & f' & err & ->); [lia|lia|].
    cbn [mbind exec_bind]. destruct err; [eauto|].
    destruct all; [destruct (SaveFileTree _) as [? [?|]]|]; eauto. }
  split.
  - unfold Write. destruct (Z.land (flag f) WriteOnly =? 0).
    { eexists _, _, _, _. split; [done|]. split; [lia|done]. }
    destruct (Hflush fs (with_buf f (Buffer_Write (buf f) p)) false eq_refl)
      as (fs' & f' & err & ->).
    simpl. destruct err as [err|].
    + eexists _, _, _, _. split; [done|]. split; [|done].
      unfold Buffer_Len. destruct (Z.ltb_spec (Z.of_nat (length p)
        - Z.of_nat (length (buf f'))) 0); lia.
    + eexists _, _, _, _. split; [done|]. split; [lia|done].
  - unfold Close. destruct (negb _ && _).
    + apply Hflush. done.
    + eauto.
Qed.
End Returns.

(** ** Writing over a file with content *)

Section Overwrite.
Context {ext : Collaborators}.

Lemma update_update (fs : FileSystem) (p : positive)
    (g h : FileInfo → FileInfo) :
  update (update fs p g) p h = update fs p (λ i, h (g i)).
Proof.
  unfold update at 1 3. rewrite deref_update. simpl.
  by rewrite insert_insert_eq.
Qed.

Lemma update_ext (fs : FileSystem) (p : positive) (g h : FileInfo → FileInfo) :
  (∀ i, g i = h i) → update fs p g = update fs p h.
Proof. intros Hgh. unfold update. by rewrite Hgh. Qed.

(** Truncation commutes with the other updates of the node. *)
Lemma truncate_update (fs : FileSystem) (p : positive)
    (g : FileInfo → FileInfo) :
  (∀ i, truncate (g i) = g (truncate i)) →
  update (update fs p truncate) p g = update (update fs p g) p truncate.
Proof.
  intros Hg. rewrite !update_update. apply update_ext. intros i. by rewrite Hg.
Qed.

Lemma flush_page_truncated (fs : FileSystem) (f : File) (data : list byte) :
  offset f = 0 →
  flush_page (update fs (info f) truncate) f data = flush_page fs f data.
Proof.
  intros Hoff. unfold flush_page. rewrite Hoff. simpl.
  by rewrite update_update.
Qed.

Lemma flush_loop_truncated (fuel : nat) (all : bool) (fs : FileSystem)
    (f : File) :
  offset f = 0 → 0 < pageSize fs → buf f ≠ [] →
  all || (pageSize fs <=? Buffer_Len (buf f)) = true →
  flush_loop fuel all (update fs (info f) truncate) f
  = flush_loop fuel all fs f.
Proof.
  intros Hoff HP Hbuf Hcond. destruct fuel as [|fuel]; simpl; rewrite Hcond;
    [done|].
  destruct (Z.ltb_spec (pageSize fs) 0) as [|_]; [lia|].
  rewrite Buffer_Read_nonempty by done.
  destruct (take (Z.to_nat (pageSize fs)) (buf f)) as [|y data] eqn:Hdata.
  { apply (f_equal length) in Hdata. rewrite length_take in Hdata.
    destruct (buf f); [done|]. simpl in Hdata. lia. }
  change (info f) with (info (with_buf f (drop (Z.to_nat (pageSize fs)) (buf f)))).
  by rewrite flush_page_truncated.
Qed.

Lemma flush_truncated (fs : FileSystem) (f : File) (all : bool) :
  offset f = 0 → 0 < pageSize fs → buf f ≠ [] →
  all || (pageSize fs <=? Buffer_Len (buf f)) = true →
  flush (update fs (info f) truncate) f all = flush fs f all.
Proof.
  intros Hoff HP Hbuf Hcond. unfold flush. rewrite Hoff.
  assert ((0 <? Buffer_Len (buf f)) = true) as ->.
  { apply Z.ltb_lt. unfold Buffer_Len. destruct (buf f); [done|]. simpl. lia. }
  cbn -[flush_loop update]. rewrite truncate_update by done.
  by rewrite flush_loop_truncated.
Qed.

Lemma flush_idle (fs : FileSystem) (f : File) :
  Buffer_Len (buf f) < pageSize fs →
  ∃ fs',
    flush fs f false = Done (fs', f, None)
    ∧ pageSize fs' = pageSize fs
    ∧ flush (update fs (info f) truncate) f false
      = Done (update fs' (info f) truncate, f, None).
Proof.
  intros Hlt. unfold flush.
  assert (Hloop : ∀ x, pageSize x = pageSize fs →
            flush_loop (S (length (buf f))) false x f = Done (x, f, None)).
  { intros x Hx. simpl. rewrite Hx.
    by destruct (Z.leb_spec (pageSize fs) (Buffer_Len (buf f))); [lia|]. }
  rewrite deref_update.
  change (MIMEType (truncate ?i)) with (MIMEType i).
  destruct (_ && _).
  - rewrite !Hloop by done. simpl. eexists. split; [done|]. split; [done|].
    by rewrite truncate_update.
  - rewrite !Hloop by done. simpl. eauto.
Qed.

Lemma Write_truncated (fs : FileSystem) (f : File) (p : list byte) :
  offset f = 0 → 0 < pageSize fs → Z.land (flag f) WriteOnly ≠ 0 →
  Write (update fs (info f) truncate) f p = Write fs f p
  ∨ ∃ fs',
      Write fs f p
      = Done (fs', with_buf f (buf f ++ p), Z.of_nat (length p), None)
      ∧ Write (update fs (info f) truncate) f p
        = Done (update fs' (info f) truncate, with_buf f (buf f ++ p),
                Z.of_nat (length p), None)
      ∧ pageSize fs' = pageSize fs.
Proof.
  intros Hoff HP Hflag. unfold Write.
  destruct (Z.eqb_spec (Z.land (flag f) WriteOnly) 0) as [|_]; [done|].
  set (f1 := with_buf f (Buffer_Write (buf f) p)).
  destruct (Z.leb_spec (pageSize fs) (Buffer_Len (buf f1))) as [Hfull|Hpart].
  - left. change (info f) with (info f1). rewrite flush_truncated; try done.
    + intros Hnil. unfold Buffer_Len in Hfull. rewrite Hnil in Hfull.
      simpl in Hfull. lia.
    + simpl. by apply Z.leb_le.
  - right. destruct (flush_idle fs f1 Hpart) as (fs' & -> & Hps & Ht).
    change (info f) with (info f1). rewrite Ht. simpl. eauto.
Qed.

Lemma Writes_truncated (chunks : list (list byte)) :
  ∀ fs f,
    offset f = 0 → 0 < pageSize fs → Z.land (flag f) WriteOnly ≠ 0 →
    Writes (update fs (info f) truncate) f chunks = Writes fs f chunks
    ∨ ∃ fs',
        Writes fs f chunks
        = Done (fs', with_buf f (buf f ++ concat chunks),
                (λ p, (Z.of_nat (length p), None)) <$> chunks)
        ∧ Writes (update fs (info f) truncate) f chunks
          = Done (update fs' (info f) truncate,
                  with_buf f (buf f ++ concat chunks),
                  (λ p, (Z.of_nat (length p), None)) <$> chunks)
        ∧ pageSize fs' = pageSize fs.
Proof.
  induction chunks as [|p chunks IH]; intros fs f Hoff HP Hflag; simpl.
  - right. exists fs. rewrite app_nil_r. by destruct f.
  - destruct (Write_truncated fs f p Hoff HP Hflag)
      as [->|(fs' & -> & -> & Hps)]; [by left|]. simpl.
    destruct (IH fs' (with_buf f (buf f ++ p)))
      as [HW|(fs'' & HW & HW' & Hps')]; [done|lia|done|..].
    + left. simpl in HW. by rewrite HW.
    + right. simpl in HW, HW'. rewrite HW, HW'. simpl.
      exists fs''. rewrite <- app_assoc. split_and!; try done. lia.
Qed.

Lemma Close_truncated (fs : FileSystem) (f : File) :
  offset f = 0 → 0 < pageSize fs → Z.land (flag f) WriteOnly ≠ 0 →
  buf f ≠ [] →
  Close (update fs (info f) truncate) f = Close fs f.
Proof.
  intros Hoff HP Hflag Hbuf. unfold Close. rewrite truncate_update by done.
  destruct (Z.eqb_spec (Z.land (flag f) WriteOnly) 0) as [|_]; [done|].
  assert ((0 <? Buffer_Len (buf f)) = true) as ->.
  { apply Z.ltb_lt. unfold Buffer_Len. destruct (buf f); [done|]. simpl. lia. }
  cbn [negb andb]. by rewrite flush_truncated.
Qed.

(** X7.  Writing replaces the content.  Opening a write handle, writing
    chunks with at least one byte and closing gives the same file
    system, handle and results as doing so on the node truncated
    before: nothing of the old pages or the old size of the node is
    left in what the node lists. *)
Theorem overwrite_is_write_to_truncated
    (fs : FileSystem) (nd : positive) (wflag : Flag)
    (chunks : list (list byte)) :
  Z.land wflag WriteOnly ≠ 0 →
  0 < pageSize fs →
  concat chunks ≠ [] →
  write_file fs nd wflag chunks
  = write_file (update fs nd truncate) nd wflag chunks.
Proof.
  intros Hflag HP Hdata. unfold write_file.
  rewrite !newFile_write_mode by done. cbn [mbind exec_bind].
  rewrite truncate_update by done.
  set (fs1 := update fs nd (λ i, set_busy i true)).
  destruct (Writes_truncated chunks fs1 (mkFile [] 0 nd wflag))
    as [HW|(fs' & HW & HW' & Hps)]; try done.
  - cbn [info] in HW. by rewrite HW.
  - cbn [info buf app with_buf offset flag] in HW, HW'. rewrite HW, HW'.
    cbn [mbind exec_bind].
    set (f2 := mkFile (concat chunks) 0 nd wflag).
    change nd with (info f2) at 2. rewrite Close_truncated; try done.
    rewrite Hps. exact HP.
Qed.

Lemma Write_of_nothing (fs : FileSystem) (f : File) :
  buf f = [] → 0 < pageSize fs → Z.land (flag f) WriteOnly ≠ 0 →
  Write fs f [] = Done (fs, f, 0, None).
Proof.
  intros Hbuf HP Hflag. unfold Write.
  destruct (Z.eqb_spec (Z.land (flag f) WriteOnly) 0) as [|_]; [done|].
  replace (with_buf f (Buffer_Write (buf f) [])) with f
    by (destruct f; simpl in *; by subst).
  unfold flush. rewrite Hbuf.
  change (0 <? Buffer_Len []) with false. cbn [andb length flush_loop orb].
  rewrite Hbuf. change (Buffer_Len []) with 0.
  by destruct (Z.leb_spec (pageSize fs) 0) as [|_]; [lia|].
Qed.

Lemma Writes_of_nothing (chunks : list (list byte)) :
  ∀ fs f,
    concat chunks = [] → buf f = [] → 0 < pageSize fs →
    Z.land (flag f) WriteOnly ≠ 0 →
    Writes fs f chunks = Done (fs, f, (λ _, (0, None)) <$> chunks).
Proof.
  induction chunks as [|p chunks IH]; intros fs f Hnil Hbuf HP Hflag; simpl;
    [done|].
  simpl in Hnil. apply app_eq_nil in Hnil as [-> Hnil].
  rewrite Write_of_nothing by done. cbn [mbind exec_bind].
  by rewrite IH.
Qed.

(** X8.  Opening a write handle, writing chunks without a byte and
    closing leaves the node as it was but for the busy flag, which is
    cleared: the node is not truncated, no page is stored, no
    identifier is drawn and the file tree is not saved. *)
Theorem write_nothing_keeps_content
    (fs : FileSystem) (nd : positive) (wflag : Flag)
    (chunks : list (list byte)) :
  Z.land wflag WriteOnly ≠ 0 →
  0 < pageSize fs →
  concat chunks = [] →
  write_file fs nd wflag chunks
  = Done (update fs nd (λ i, set_busy i false), mkFile [] 0 nd wflag,
          (λ _, (0, None)) <$> chunks, None).
Proof.
  intros Hflag HP Hnil. unfold write_file.
  rewrite newFile_write_mode by done. cbn [mbind exec_bind].
  rewrite Writes_of_nothing by done. cbn [mbind exec_bind].
  rewrite Close_with_empty_buffer by done. cbn [mbind exec_bind info].
  rewrite update_update. do 2 f_equal.
Qed.
End Overwrite.

(** ** Thumbnails *)

Section Thumbnails.
Context {ext : Collaborators}.

Lemma Thumbnail_insert (th : gmap positive string) (p : positive) (t : string) :
  Thumbnail (<[p := t]> th) p = t.
Proof. unfold Thumbnail. by rewrite lookup_insert_eq. Qed.

Lemma thumbnail_key_insert (fs fs' : FileSystem) (th : gmap positive string)
    (f : File) :
  thumbnail_key fs th f ≠ ""%string →
  thumbnail_key fs' (<[info f := thumbnail_key fs th f]> th) f
  = thumbnail_key fs th f.
Proof.
  intros Hkey. unfold thumbnail_key at 1. rewrite Thumbnail_insert.
  by rewrite bool_decide_eq_false_2.
Qed.

Lemma WriteThumbnail_stores (fs : FileSystem) (th : gmap positive string)
    (f : File) (b c : list byte) :
  EncryptPage b = inr c →
  (∀ fs key val, storage_Put_error fs key val = None) →
  (∀ fs, SaveFileTree_error fs = None) →
  ∃ fs',
    WriteThumbnail fs th f b
    = (fs', <[info f := thumbnail_key fs th f]> th, None)
    ∧ storage fs' = <[thumbnail_key fs th f := c]> (storage fs)
    ∧ nodes fs' = nodes fs
    ∧ pageSize fs' = pageSize fs
    ∧ uuids fs'
      = if bool_decide (Thumbnail th (info f) = ""%string)
        then S (uuids fs) else uuids fs.
Proof.
  intros Henc Hput Hsave. unfold WriteThumbnail, thumbnail_key. rewrite Henc.
  destruct (bool_decide _); rewrite storage_Put_ok by apply Hput;
    rewrite SaveFileTree_ok by apply Hsave; eexists; by split_and!.
Qed.

(** Whatever [WriteThumbnail] returns, it has left the page size, the
    nodes and every blob but the thumbnail's as they were. *)
Lemma WriteThumbnail_shape (fs : FileSystem) (th : gmap positive string)
    (f : File) (b : list byte) :
  pageSize (WriteThumbnail fs th f b).1.1 = pageSize fs
  ∧ nodes (WriteThumbnail fs th f b).1.1 = nodes fs
  ∧ ∀ page, page ≠ thumbnail_key fs th f →
      storage (WriteThumbnail fs th f b).1.1 !! page = storage fs !! page.
Proof.
  unfold WriteThumbnail, thumbnail_key, storage_Put, SaveFileTree.
  destruct (bool_decide _); destruct (EncryptPage b) as [er|c];
    cbn [fst snd]; try done;
    destruct (storage_Put_error _ _ c); cbn [fst snd]; try done;
    destruct (SaveFileTree_error _); cbn [fst snd];
    (split_and!; [done|done|]); intros page Hne; simpl;
    by rewrite lookup_insert_ne.
Qed.

Lemma ReadThumbnail_stored (fs : FileSystem) (th : gmap positive string)
    (g : File) (b c : list byte) :
  Thumbnail th (info g) ≠ ""%string →
  storage fs !! Thumbnail th (info g) = Some c →
  DecryptPage c = inr b →
  ReadThumbnail fs th g = (b, None).
Proof.
  intros Hkey Hc Hdec. unfold ReadThumbnail, storage_Get.
  rewrite bool_decide_eq_false_2 by done. by rewrite Hc, Hdec.
Qed.

(** X9.  Thumbnail round trip.  Where the encryption, the blob store
    and the persistence of the tree do not fail, [WriteThumbnail] stores
    the thumbnail under the identifier of the node's thumbnail, or a new
    one if the node has none, and records that identifier in the node;
    [ReadThumbnail] through any handle on that node returns the bytes
    written. *)
Theorem thumbnail_round_trip
    (fs : FileSystem) (th : gmap positive string) (f g : File)
    (b c : list byte) :
  EncryptPage b = inr c →
  DecryptPage c = inr b →
  (∀ fs key val, storage_Put_error fs key val = None) →
  (∀ fs, SaveFileTree_error fs = None) →
  thumbnail_key fs th f ≠ ""%string →
  info g = info f →
  ∃ fs' th',
    WriteThumbnail fs th f b = (fs', th', None)
    ∧ Thumbnail th' (info f) = thumbnail_key fs th f
    ∧ ReadThumbnail fs' th' g = (b, None).
Proof.
  intros Henc Hdec Hput Hsave Hkey Hg.
  destruct (WriteThumbnail_stores fs th f b c Henc Hput Hsave)
    as (fs' & HW & Hsto & _).
  eexists _, _. split; [exact HW|]. rewrite Thumbnail_insert. split; [done|].
  apply (ReadThumbnail_stored _ _ _ b c); rewrite ?Hg, ?Thumbnail_insert;
    [done| |done].
  by rewrite Hsto, lookup_insert_eq.
Qed.

(** X10.  Where the encryption, the blob store and the persistence of
    the tree do not fail, a second [WriteThumbnail] on the same node
    draws no identifier and adds no blob: it stores under the identifier
    of the first one, and [ReadThumbnail] returns the bytes written
    last. *)
Theorem thumbnail_rewrite_reuses_key
    (fs : FileSystem) (th : gmap positive string) (f : File)
    (b1 b2 c1 c2 : list byte) :
  EncryptPage b1 = inr c1 →
  EncryptPage b2 = inr c2 →
  DecryptPage c2 = inr b2 →
  (∀ fs key val, storage_Put_error fs key val = None) →
  (∀ fs, SaveFileTree_error fs = None) →
  thumbnail_key fs th f ≠ ""%string →
  ∃ fs1 th1 fs2,
    WriteThumbnail fs th f b1 = (fs1, th1, None)
    ∧ WriteThumbnail fs1 th1 f b2 = (fs2, th1, None)
    ∧ uuids fs2 = uuids fs1
    ∧ dom (storage fs2) = dom (storage fs1)
    ∧ ReadThumbnail fs2 th1 f = (b2, None).
Proof.
  intros Henc1 Henc2 Hdec2 Hput Hsave Hkey.
  destruct (WriteThumbnail_stores fs th f b1 c1 Henc1 Hput Hsave)
    as (fs1 & HW1 & Hsto1 & _).
  set (tb := thumbnail_key fs th f) in *.
  destruct (WriteThumbnail_stores fs1 (<[info f := tb]> th) f b2 c2 Henc2
              Hput Hsave)
    as (fs2 & HW2 & Hsto2 & _ & _ & Hu2).
  subst tb. rewrite thumbnail_key_insert in HW2, Hsto2 by done.
  rewrite Thumbnail_insert, bool_decide_eq_false_2 in Hu2 by done.
  rewrite insert_insert_eq in HW2.
  eexists _, _, _. split_and!; [exact HW1|exact HW2|done| |].
  - rewrite Hsto2, Hsto1, insert_insert_eq. by rewrite !dom_insert_L.
  - apply (ReadThumbnail_stored _ _ _ b2 c2); rewrite ?Thumbnail_insert;
      [done| |done].
    by rewrite Hsto2, lookup_insert_eq.
Qed.

(** X11.  [WriteThumbnail] does not touch the content of a file,
    whatever it returns: where the identifier it stores under is not one
    of the pages of the node [nd], a node that holds [B] holds [B]
    afterwards, also when the encryption, the blob store or the
    persistence of the tree has failed. *)
Theorem WriteThumbnail_keeps_content
    (fs : FileSystem) (th : gmap positive string) (f : File)
    (b : list byte) (nd : positive) (B : list byte) :
  file_holds fs nd B →
  thumbnail_key fs th f ∉ Pages (deref fs nd) →
  file_holds (WriteThumbnail fs th f b).1.1 nd B.
Proof.
  intros (HP & Hfile & Hsize & HB & Hpages) Hfresh.
  destruct (WriteThumbnail_shape fs th f b) as (Hps & Hnodes & Hsto).
  assert (Hderef : deref (WriteThumbnail fs th f b).1.1 nd = deref fs nd).
  { unfold deref. by rewrite Hnodes. }
  unfold file_holds. rewrite Hderef, Hps. split_and!; try done.
  intros j Hj. destruct (Hpages j Hj) as (page & c' & Hpage & Hc' & Hdec).
  exists page, c'. split_and!; try done.
  rewrite Hsto; [done|].
  intros Heq. apply Hfresh. rewrite <- Heq.
  by apply list_elem_of_lookup_2 in Hpage.
Qed.
End Thumbnails.

(** ** Directories, empty files and a codec that fails *)

Section Edges.
Context {ext : Collaborators}.

(** X12.  [Read] on a directory copies from the serialized listing.  At
    offset [o] it returns the next [N] bytes of the listing and moves
    the offset by as many as it copied, never past the end, and returns
    [io.EOF] as soon as the offset has reached the end; in particular
    the read that returns the last bytes returns [io.EOF] with them. *)
Theorem Read_directory_listing
    (fs : FileSystem) (f : File) (o N : nat) :
  let i := deref fs (info f) in
  let C := DirContent i in
  Z.land (flag f) WriteOnly = 0 →
  IsDir i = true →
  Size i = Z.of_nat (length C) →
  Z.of_nat (length C) < 2 ^ 63 →
  offset f = Z.of_nat o →
  (o ≤ length C)%nat →
  Read fs f N
  = Done (with_offset f (Z.of_nat ((o + N) `min` length C)),
          take N (drop o C),
          if decide (o + N < length C)%nat then None else Some io_EOF).
Proof.
  intros i C Hflag Hdir Hsize HC Hoff Ho. unfold Read.
  rewrite Hflag. fold i. rewrite Hdir, Hsize, Hoff. fold C. simpl.
  assert (Hlen : length (take N (drop o C)) = (N `min` (length C - o))%nat).
  { by rewrite length_take, length_drop. }
  destruct (Z.ltb_spec (Z.of_nat o) (Z.of_nat (length C))) as [Hlt|Hge].
  - destruct (Z.ltb_spec (Z.of_nat o) 0) as [|_]; [lia|].
    destruct (Z.ltb_spec (Z.of_nat (length C)) (Z.of_nat o)) as [|_]; [lia|].
    simpl. rewrite Nat2Z.id, Hlen. unfold with_offset. simpl.
    rewrite wrap64_small by lia.
    replace (Z.of_nat o + Z.of_nat (N `min` (length C - o)))
      with (Z.of_nat ((o + N) `min` length C)) by lia.
    destruct (Z.leb_spec (Z.of_nat (length C))
                (Z.of_nat ((o + N) `min` length C)));
      case_decide; done || lia.
  - assert (o = length C) as -> by lia.
    simpl. rewrite drop_all, take_nil. unfold with_offset. simpl.
    rewrite wrap64_small by lia. rewrite Z.add_0_r.
    replace ((length C + N) `min` length C)%nat with (length C) by lia.
    destruct (Z.leb_spec (Z.of_nat (length C)) (Z.of_nat (length C)));
      case_decide; done || lia.
Qed.

(** X13.  On a node of size 0 every [Seek] of a handle at offset 0
    fails, whatever the offset argument and the origin, [Seek(0,
    io.SeekStart)] included, and leaves the handle as it was. *)
Theorem Seek_fails_on_empty_file
    (fs : FileSystem) (f : File) (off whence : Z) :
  Size (deref fs (info f)) = 0 →
  offset f = 0 →
  - 2 ^ 63 ≤ off < 2 ^ 63 →
  ∃ pos err, Seek fs f off whence = (f, pos, Some err).
Proof.
  intros Hsize Hoff Hrange. unfold Seek, seek_abs. rewrite Hsize, Hoff.
  destruct (IsDir _); [eauto|].
  destruct (negb _); [eauto|].
  destruct (Z.leb_spec 0 off); [eauto|].
  rewrite !Z.add_0_l, wrap64_small by lia.
  destruct (whence =? io_SeekStart); [|destruct (whence =? io_SeekCurrent);
    [|destruct (whence =? io_SeekEnd); [|eauto]]];
    (destruct (Z.ltb_spec off 0); [eauto|lia]).
Qed.

Lemma flush_loop_encryption_fails (fuel : nat) (all : bool)
    (fs : FileSystem) (g : File) (e : error) :
  let P := Z.to_nat (pageSize fs) in
  0 < pageSize fs →
  (P ≤ length (buf g))%nat →
  EncryptPage (take P (buf g)) = inl e →
  flush_loop (S fuel) all fs g
  = Done (next_uuid (if offset g =? 0 then update fs (info g) truncate
                     else fs),
          mkFile (drop P (buf g)) (wrap64 (offset g + pageSize fs)) (info g)
            (flag g),
          Some (fmt_Errorf_w "encrypt: %w" e)).
Proof.
  intros P HP Hlen Henc. cbn [flush_loop]. fold P.
  assert (Hcond : all || (pageSize fs <=? Buffer_Len (buf g)) = true).
  { apply orb_true_iff. right. apply Z.leb_le. unfold Buffer_Len. lia. }
  rewrite Hcond.
  destruct (Z.ltb_spec (pageSize fs) 0) as [|_]; [lia|].
  rewrite Buffer_Read_nonempty
    by (intros Hnil; rewrite Hnil in Hlen; simpl in Hlen; lia).
  assert (Hdlen : Z.of_nat (length (take P (buf g))) = pageSize fs).
  { rewrite length_take. lia. }
  destruct (take P (buf g)) as [|y data] eqn:Hdata.
  { simpl in Hdlen. lia. }
  unfold flush_page. rewrite Henc, Hdlen. done.
Qed.

(** X14.  When the encryption of the first buffered page fails, [Write]
    returns the wrapped error, and the page is lost: its bytes have
    left the staging buffer, the offset has moved over them and an
    identifier has been drawn, while nothing was stored; at offset 0
    the node has been truncated before.  The count returned is the
    number of bytes of the chunk that are not in the buffer any more,
    0 at least. *)
Theorem Write_drops_page_when_encryption_fails
    (fs : FileSystem) (f : File) (p : list byte) (e : error) :
  let P := Z.to_nat (pageSize fs) in
  let b := buf f ++ p in
  Z.land (flag f) WriteOnly ≠ 0 →
  0 < pageSize fs →
  (P ≤ length b)%nat →
  EncryptPage (take P b) = inl e →
  ∃ fs',
    Write fs f p
    = Done (fs',
            mkFile (drop P b) (wrap64 (offset f + pageSize fs)) (info f)
              (flag f),
            Z.max 0 (Z.of_nat (length p) - Z.of_nat (length b - P)),
            Some (fmt_Errorf_w "encrypt: %w" e))
    ∧ storage fs' = storage fs
    ∧ uuids fs' = S (uuids fs)
    ∧ Pages (deref fs' (info f))
      = if offset f =? 0 then [] else Pages (deref fs (info f)).
Proof.
  intros P b Hflag HP Hlen Henc. unfold Write.
  destruct (Z.eqb_spec (Z.land (flag f) WriteOnly) 0) as [|_]; [done|].
  unfold Buffer_Write. fold b. unfold flush.
  set (g := with_buf f b).
  set (fs_m := if _ : bool then _ else fs).
  assert (Hm : pageSize fs_m = pageSize fs ∧ storage fs_m = storage fs
               ∧ uuids fs_m = uuids fs
               ∧ Pages (deref fs_m (info f)) = Pages (deref fs (info f))).
  { subst fs_m. destruct (_ && _); [|done]. by rewrite deref_update. }
  destruct Hm as (Hps & Hsto & Hu & Hpages).
  rewrite (flush_loop_encryption_fails _ false fs_m g e);
    rewrite ?Hps; try done.
  cbn [mbind exec_bind buf info flag offset g with_buf Buffer_Len].
  eexists. split.
  - do 3 f_equal. unfold Buffer_Len. rewrite length_drop. fold P.
    destruct (Z.ltb_spec (Z.of_nat (length p) - Z.of_nat (length b - P)) 0);
      lia.
  - change (deref (next_uuid ?X) ?q) with (deref X q).
    destruct (Z.eqb_spec (offset f) 0); split_and!; try done.
    + simpl. by rewrite Hu.
    + by rewrite deref_update.
    + simpl. by rewrite Hu.
Qed.
End Edges.

(** ** A store and a persistence that fail *)

Section StoreFailures.
Context {ext : Collaborators}.

Lemma flush_loop_Put_fails (fuel : nat) (all : bool)
    (fs : FileSystem) (g : File) (c : list byte) (e : error) :
  let P := Z.to_nat (pageSize fs) in
  0 < pageSize fs →
  (P ≤ length (buf g))%nat →
  EncryptPage (take P (buf g)) = inr c →
  (∀ fs' key, storage_Put_error fs' key c = Some e) →
  flush_loop (S fuel) all fs g
  = Done (next_uuid (if offset g =? 0 then update fs (info g) truncate
                     else fs),
          mkFile (drop P (buf g)) (wrap64 (offset g + pageSize fs)) (info g)
            (flag g),
          Some (fmt_Errorf_w "put: %w" e)).
Proof.
  intros P HP Hlen Henc Hput. cbn [flush_loop]. fold P.
  assert (Hcond : all || (pageSize fs <=? Buffer_Len (buf g)) = true).
  { apply orb_true_iff. right. apply Z.leb_le. unfold Buffer_Len. lia. }
  rewrite Hcond.
  destruct (Z.ltb_spec (pageSize fs) 0) as [|_]; [lia|].
  rewrite Buffer_Read_nonempty
    by (intros Hnil; rewrite Hnil in Hlen; simpl in Hlen; lia).
  assert (Hdlen : Z.of_nat (length (take P (buf g))) = pageSize fs).
  { rewrite length_take. lia. }
  destruct (take P (buf g)) as [|y data] eqn:Hdata.
  { simpl in Hdlen. lia. }
  unfold flush_page, storage_Put. rewrite Henc, Hput, Hdlen. done.
Qed.

(** X23.  When [Put] of the first buffered page fails, [Write] returns
    the error of the store wrapped as [put: %w], and the page is lost:
    its bytes have left the staging buffer and the offset has moved over
    them, while nothing was stored and no page was added to the node; at
    offset 0 the node has been truncated before. *)
Theorem Write_loses_page_when_Put_fails
    (fs : FileSystem) (f : File) (p c : list byte) (e : error) :
  let P := Z.to_nat (pageSize fs) in
  let b := buf f ++ p in
  Z.land (flag f) WriteOnly ≠ 0 →
  0 < pageSize fs →
  (P ≤ length b)%nat →
  EncryptPage (take P b) = inr c →
  (∀ fs' key, storage_Put_error fs' key c = Some e) →
  ∃ fs',
    Write fs f p
    = Done (fs',
            mkFile (drop P b) (wrap64 (offset f + pageSize fs)) (info f)
              (flag f),
            Z.max 0 (Z.of_nat (length p) - Z.of_nat (length b - P)),
            Some (fmt_Errorf_w "put: %w" e))
    ∧ storage fs' = storage fs
    ∧ Pages (deref fs' (info f))
      = if offset f =? 0 then [] else Pages (deref fs (info f)).
Proof.
  intros P b Hflag HP Hlen Henc Hput. unfold Write.
  destruct (Z.eqb_spec (Z.land (flag f) WriteOnly) 0) as [|_]; [done|].
  unfold Buffer_Write. fold b. unfold flush.
  set (g := with_buf f b).
  set (fs_m := if _ : bool then _ else fs).
  assert (Hm : pageSize fs_m = pageSize fs ∧ storage fs_m = storage fs
               ∧ Pages (deref fs_m (info f)) = Pages (deref fs (info f))).
  { subst fs_m. destruct (_ && _); [|done]. by rewrite deref_update. }
  destruct Hm as (Hps & Hsto & Hpages).
  rewrite (flush_loop_Put_fails _ false fs_m g c e);
    rewrite ?Hps; try done.
  cbn [mbind exec_bind buf info flag offset g with_buf Buffer_Len].
  eexists. split.
  - do 3 f_equal. unfold Buffer_Len. rewrite length_drop. fold P.
    destruct (Z.ltb_spec (Z.of_nat (length p) - Z.of_nat (length b - P)) 0);
      lia.
  - change (deref (next_uuid ?X) ?q) with (deref X q).
    destruct (Z.eqb_spec (offset f) 0); split_and!; try done.
    by rewrite deref_update.
Qed.

(** X24.  When [SaveFileTree] fails, [Close] of a write handle that
    holds up to one page returns its error wrapped as
    [save file info list: %w] after the page has been stored, the size
    of the node set and its busy flag cleared: the node in memory is up
    to date and the persisted tree is as it was. *)
Theorem Close_returns_SaveFileTree_error
    (fs : FileSystem) (f : File) (c : list byte) (e : error) :
  let P := Z.to_nat (pageSize fs) in
  let o := wrap64 (offset f + Z.of_nat (length (buf f))) in
  Z.land (flag f) WriteOnly ≠ 0 →
  0 < pageSize fs →
  buf f ≠ [] →
  (length (buf f) ≤ P)%nat →
  EncryptPage (buf f) = inr c →
  (∀ fs' key, storage_Put_error fs' key c = None) →
  (∀ fs', SaveFileTree_error fs' = Some e) →
  ∃ fs',
    Close fs f
    = Done (fs', mkFile [] o (info f) (flag f),
            Some (fmt_Errorf_w "save file info list: %w" e))
    ∧ persisted fs' = persisted fs
    ∧ storage fs' = <[uuid_NewString (uuids fs) := c]> (storage fs)
    ∧ Size (deref fs' (info f)) = o
    ∧ busy (deref fs' (info f)) = false.
Proof.
  intros P o Hflag HP Hbuf Hlen Henc Hput Hsave. unfold Close.
  destruct (Z.eqb_spec (Z.land (flag f) WriteOnly) 0) as [|_]; [done|].
  assert (Hpos : (0 <? Buffer_Len (buf f)) = true).
  { apply Z.ltb_lt. unfold Buffer_Len. destruct (buf f); [done|]. simpl. lia. }
  rewrite Hpos. cbn [negb andb]. unfold flush.
  set (fs_b := update fs (info f) (λ i, set_busy i false)).
  set (fs_m := if _ : bool then _ else fs_b).
  assert (Hm : pageSize fs_m = pageSize fs ∧ storage fs_m = storage fs
               ∧ persisted fs_m = persisted fs ∧ uuids fs_m = uuids fs
               ∧ busy (deref fs_m (info f)) = false).
  { subst fs_m fs_b. destruct (_ && _); rewrite !deref_update; done. }
  destruct Hm as (Hps & Hsto & Hper & Hu & Hbusy).
  destruct (buf f) as [|x b] eqn:Hb; [done|].
  cbn [length flush_loop orb]. rewrite Hps.
  destruct (Z.ltb_spec (pageSize fs) 0) as [|_]; [lia|].
  fold P. rewrite Hb, Buffer_Read_nonempty by done.
  rewrite take_ge, drop_ge by done.
  cbn [with_buf buf]. unfold flush_page, storage_Put.
  cbn [offset info flag with_offset with_buf buf]. rewrite Henc, Hput.
  assert (Hps1 : ∀ X pg, pageSize (update (mkFileSystem (pageSize X)
      (<[pg := c]> (storage X)) (nodes X) (persisted X) (uuids X))
      (info f) (λ i, addPage i pg)) = pageSize X) by done.
  rewrite Hps1. cbn [pageSize next_uuid].
  assert (Hps2 : pageSize (if offset f =? 0
      then update fs_m (info f) truncate else fs_m) = pageSize fs).
  { by destruct (offset f =? 0). }
  rewrite Hps2.
  destruct (Z.ltb_spec (pageSize fs) 0) as [|_]; [lia|].
  fold P. rewrite Buffer_Read_empty by lia.
  cbn [mbind exec_bind]. rewrite bool_decide_eq_false_2 by (intros H; done).
  cbn [mbind exec_bind offset info]. unfold SaveFileTree. rewrite Hsave.
  eexists. split; [done|].
  change (deref (mkFileSystem ?a ?b (nodes ?X) ?d ?e0) ?q) with (deref X q).
  rewrite !deref_update. cbn [persisted storage update].
  assert (Hx : persisted (if offset f =? 0
      then update fs_m (info f) truncate else fs_m) = persisted fs
    ∧ storage (if offset f =? 0
      then update fs_m (info f) truncate else fs_m) = storage fs
    ∧ uuids (if offset f =? 0
      then update fs_m (info f) truncate else fs_m) = uuids fs
    ∧ busy (deref (if offset f =? 0
      then update fs_m (info f) truncate else fs_m) (info f)) = false).
  { destruct (offset f =? 0); rewrite ?deref_update; done. }
  destruct Hx as (Hper' & Hsto' & Hu' & Hbusy').
  rewrite Hu'. split_and!; try done. cbn [storage next_uuid]. by rewrite Hsto'.
Qed.
End StoreFailures.

(** ** Pages that cannot be loaded *)

Section LoadFailures.
Context {ext : Collaborators}.

(** [Read] into at least one byte, on a read handle of a file, with an
    empty staging buffer and the offset inside the size: what [Read]
    returns is what loading the page returns. *)
Lemma Read_loads_first (fs : FileSystem) (f : File) (N : nat) :
  Z.land (flag f) WriteOnly = 0 →
  IsDir (deref fs (info f)) = false →
  buf f = [] →
  offset f < Size (deref fs (info f)) →
  (1 ≤ N)%nat →
  ∀ r, load_page fs f = r →
    match r with
    | Done (inl err) => Read fs f N = Done (f, [], Some err)
    | Panic msg => Read fs f N = Panic msg
    | _ => True
    end.
Proof.
  intros Hflag Hfile Hbuf Hoff HN r <-. unfold Read. rewrite Hflag, Hfile.
  destruct N as [|N]; [lia|].
  cbn [Z.eqb negb Read_loop length Nat.ltb Nat.leb Nat.sub]. unfold read.
  destruct (Z.leb_spec (Size (deref fs (info f))) (offset f)) as [|_]; [lia|].
  rewrite Hbuf. change (Buffer_Len [] =? 0) with true. cbv iota.
  destruct (load_page fs f) as [[err|g]| |]; done.
Qed.

Lemma pageIndex_small (fs : FileSystem) (f : File) :
  0 < pageSize fs → 0 ≤ offset f < 2 ^ 63 →
  wrap64 (Z.quot (offset f) (pageSize fs)) = offset f / pageSize fs
  ∧ 0 ≤ offset f / pageSize fs.
Proof.
  intros HP Hoff. rewrite Z.quot_div_nonneg by lia.
  assert (0 ≤ offset f / pageSize fs) by (apply Z.div_pos; lia).
  assert (offset f / pageSize fs ≤ offset f)
    by (apply Z.div_le_upper_bound; nia).
  split; [|done]. apply wrap64_small. lia.
Qed.

(** X20.  A page that the node lists and the storage does not have reads
    as the end of the file: [Read] returns no byte and [io.EOF], not an
    error of the storage, and leaves the handle as it was. *)
Theorem Read_missing_page_is_EOF
    (fs : FileSystem) (f : File) (N : nat) (page : string) :
  Z.land (flag f) WriteOnly = 0 →
  IsDir (deref fs (info f)) = false →
  buf f = [] →
  0 < pageSize fs →
  0 ≤ offset f < Size (deref fs (info f)) →
  offset f < 2 ^ 63 →
  (1 ≤ N)%nat →
  Pages (deref fs (info f)) !! Z.to_nat (offset f / pageSize fs) = Some page →
  storage fs !! page = None →
  Read fs f N = Done (f, [], Some io_EOF).
Proof.
  intros Hflag Hfile Hbuf HP Hoff Hsmall HN Hpage Hmiss.
  apply (Read_loads_first fs f N Hflag Hfile Hbuf (proj2 Hoff) HN
           (Done (inl io_EOF))).
  destruct (pageIndex_small fs f) as [Hidx Hnn]; [done|lia|].
  pose proof (lookup_lt_Some _ _ _ Hpage) as Hlen.
  unfold load_page. rewrite Hidx.
  destruct (Z.eqb_spec (pageSize fs) 0) as [|_]; [lia|].
  destruct (Z.ltb_spec (offset f / pageSize fs) 0) as [|_]; [lia|].
  destruct (Z.leb_spec (Z.of_nat (length (Pages (deref fs (info f)))))
              (offset f / pageSize fs)) as [|_]; [lia|].
  cbn [orb]. rewrite Hpage. unfold storage_Get. by rewrite Hmiss.
Qed.

(** X21.  When the page at the offset does not decrypt, [Read] returns no
    byte and the error of the codec wrapped as [decrypt: %w], and leaves
    the handle as it was. *)
Theorem Read_returns_decrypt_error
    (fs : FileSystem) (f : File) (N : nat) (page : string) (c : list byte)
    (e : error) :
  Z.land (flag f) WriteOnly = 0 →
  IsDir (deref fs (info f)) = false →
  buf f = [] →
  0 < pageSize fs →
  0 ≤ offset f < Size (deref fs (info f)) →
  offset f < 2 ^ 63 →
  (1 ≤ N)%nat →
  Pages (deref fs (info f)) !! Z.to_nat (offset f / pageSize fs) = Some page →
  storage fs !! page = Some c →
  DecryptPage c = inl e →
  Read fs f N = Done (f, [], Some (fmt_Errorf_w "decrypt: %w" e)).
Proof.
  intros Hflag Hfile Hbuf HP Hoff Hsmall HN Hpage Hc Hdec.
  apply (Read_loads_first fs f N Hflag Hfile Hbuf (proj2 Hoff) HN
           (Done (inl (fmt_Errorf_w "decrypt: %w" e)))).
  destruct (pageIndex_small fs f) as [Hidx Hnn]; [done|lia|].
  pose proof (lookup_lt_Some _ _ _ Hpage) as Hlen.
  unfold load_page. rewrite Hidx.
  destruct (Z.eqb_spec (pageSize fs) 0) as [|_]; [lia|].
  destruct (Z.ltb_spec (offset f / pageSize fs) 0) as [|_]; [lia|].
  destruct (Z.leb_spec (Z.of_nat (length (Pages (deref fs (info f)))))
              (offset f / pageSize fs)) as [|_]; [lia|].
  cbn [orb]. rewrite Hpage. unfold storage_Get. by rewrite Hc, Hdec.
Qed.

(** X22.  [Read] trusts the size of the node: at an offset below the size
    that lies past the pages the node lists, indexing the page list
    panics. *)
Theorem Read_panics_past_the_pages
    (fs : FileSystem) (f : File) (N : nat) :
  Z.land (flag f) WriteOnly = 0 →
  IsDir (deref fs (info f)) = false →
  buf f = [] →
  0 < pageSize fs →
  0 ≤ offset f < Size (deref fs (info f)) →
  offset f < 2 ^ 63 →
  (1 ≤ N)%nat →
  Z.of_nat (length (Pages (deref fs (info f)))) * pageSize fs ≤ offset f →
  Read fs f N = Panic "index out of range".
Proof.
  intros Hflag Hfile Hbuf HP Hoff Hsmall HN Hpast.
  apply (Read_loads_first fs f N Hflag Hfile Hbuf (proj2 Hoff) HN
           (Panic "index out of range")).
  destruct (pageIndex_small fs f) as [Hidx Hnn]; [done|lia|].
  unfold load_page. rewrite Hidx.
  destruct (Z.eqb_spec (pageSize fs) 0) as [|_]; [lia|].
  destruct (Z.ltb_spec (offset f / pageSize fs) 0) as [|_]; [lia|].
  destruct (Z.leb_spec (Z.of_nat (length (Pages (deref fs (info f)))))
              (offset f / pageSize fs)) as [|Hlt]; [done|].
  pose proof (Z.div_le_lower_bound (offset f) (pageSize fs)
                (Z.of_nat (length (Pages (deref fs (info f))))) HP).
  lia.
Qed.
End LoadFailures.

(** ** Names and paths *)

Example Split_example :
  strings_Split "a/b//c/" "/" = ["a"; "b"; ""; "c"; ""]%string
  ∧ strings_Split "a--b-c--" "--" = ["a"; "b-c"; ""]%string
  ∧ strings_Split "" "/" = [""]%string
  ∧ strings_TrimSuffix "/a/b/" "/" = "/a/b"%string
  ∧ strings_TrimPrefix "/a/b/" "/" = "a/b/"%string
  ∧ strings_Contains "ab/c" "/" = true.
Proof. vm_compute. done. Qed.

Section PathFacts.
Import Stdlib.Strings.Ascii.

Lemma split_from_nonempty (sep : string) (s : string) :
  ∀ skip, split_from sep skip s ≠ [].
Proof.
  induction s as [|c s IH]; intros skip; cbn [split_from]; [done|].
  destruct skip; [|by apply IH].
  destruct (String.prefix sep (String c s)); [done|].
  by destruct (split_from sep 0 s).
Qed.

Lemma prefix_slash (c : Ascii.ascii) (s : string) :
  String.prefix "/" (String c s) = bool_decide (c = "/"%char).
Proof.
  cbn [String.prefix]. destruct (Ascii.ascii_dec "/" c) as [<-|Hne].
  - rewrite bool_decide_eq_true_2 by done. by destruct s.
  - by rewrite bool_decide_eq_false_2.
Qed.

Lemma Split_slash_cons (c : Ascii.ascii) (s : string) :
  strings_Split (String c s) "/"
  = if bool_decide (c = "/"%char) then EmptyString :: strings_Split s "/"
    else match strings_Split s "/" with
         | seg :: segs => String c seg :: segs
         | [] => [String c EmptyString]
         end.
Proof.
  unfold strings_Split. cbn [split_from]. rewrite prefix_slash.
  by destruct (bool_decide _).
Qed.

Lemma Contains_slash_cons (c : Ascii.ascii) (s : string) :
  strings_Contains (String c s) "/"
  = bool_decide (c = "/"%char) || strings_Contains s "/".
Proof. cbn [strings_Contains]. by rewrite prefix_slash. Qed.

Lemma Split_slash_segments (s : string) :
  ∀ seg, seg ∈ strings_Split s "/" → strings_Contains seg "/" = false.
Proof.
  induction s as [|c s IH]; intros seg.
  - intros ->%list_elem_of_singleton. done.
  - rewrite Split_slash_cons. case_bool_decide as Hc.
    + intros [->|Hin]%elem_of_cons; [done|]. by apply IH.
    + pose proof (split_from_nonempty "/" s 0) as Hne.
      unfold strings_Split in *.
      destruct (split_from "/" 0 s) as [|seg0 segs]; [done|].
      intros [->|Hin]%elem_of_cons.
      * rewrite Contains_slash_cons, bool_decide_eq_false_2 by done.
        apply IH. by left.
      * apply IH. by right.
Qed.

Lemma Join_Split_slash (s : string) :
  String.concat "/" (strings_Split s "/") = s.
Proof.
  induction s as [|c s IH]; [done|].
  rewrite Split_slash_cons.
  pose proof (split_from_nonempty "/" s 0) as Hne.
  unfold strings_Split in *.
  destruct (split_from "/" 0 s) as [|seg segs]; [done|].
  case_bool_decide as Hc.
  - subst c. change (String.concat "/" (EmptyString :: seg :: segs))
      with (String "/" (String.concat "/" (seg :: segs))).
    by rewrite IH.
  - rewrite <- IH. by destruct segs.
Qed.

Lemma Split_slash_single (s : string) :
  strings_Contains s "/" = false ↔ strings_Split s "/" = [s].
Proof.
  split.
  - induction s as [|c s IH]; [done|].
    rewrite Contains_slash_cons, Split_slash_cons.
    intros [Hc Hs]%orb_false_iff. rewrite Hc. by rewrite IH.
  - intros Hs. apply (Split_slash_segments s). rewrite Hs. by left.
Qed.

Variable filepath_Clean : string → string.

(** X16.  Every segment that [splitPath] returns is free of [/]:
    [validateFileName] accepts it unless it is empty. *)
Theorem splitPath_segments_are_file_names (path : string) :
  Forall (λ seg, validateFileName seg = negb (String.eqb seg ""))
    (splitPath filepath_Clean path).
Proof.
  apply Forall_forall. intros seg Hin.
  unfold splitPath in Hin. apply Split_slash_segments in Hin.
  unfold validateFileName. rewrite Hin. by destruct (String.eqb seg "").
Qed.

(** X17.  [splitPath] and [cleanName] agree: the segments of a path,
    joined by [/], are the cleaned name of the path; and [splitPath]
    returns at least one segment. *)
Theorem splitPath_joins_to_cleanName (path : string) :
  String.concat "/" (splitPath filepath_Clean path)
  = cleanName filepath_Clean path
  ∧ splitPath filepath_Clean path ≠ [].
Proof.
  unfold splitPath, cleanName. split.
  - apply Join_Split_slash.
  - apply split_from_nonempty.
Qed.

(** X18.  [validateFileName] accepts exactly the names that are not
    empty and that [strings.Split] by [/] leaves in one piece. *)
Theorem validateFileName_iff_single_segment (name : string) :
  validateFileName name = true
  ↔ name ≠ ""%string ∧ strings_Split name "/" = [name].
Proof.
  unfold validateFileName. rewrite <- Split_slash_single.
  destruct (String.eqb_spec name "") as [->|Hne].
  - split; [done | by intros [? _]].
  - destruct (strings_Contains name "/"); split; try done. by intros [_ ?].
Qed.
End PathFacts.

(** ** The code run on sample data *)

#[local] Existing Instance sample.

(** [hello_fs] is what writing [hello world] with page size 4 to a new
    file and closing the handle leaves. *)
Lemma hello_fs_written :
  ('(fs, w) ← newFile (new_fs 4) 1 WriteOnly;
   '(fs, w, n, err) ← Write fs w hello;
   '(fs, w, err') ← Close fs w;
   Done (fs, n, err, err'))
  = Done (hello_fs, 11, None, None).
Proof. vm_compute. reflexivity. Qed.

Lemma xor_byte_involutive (b : byte) : xor_byte x5a (xor_byte x5a b) = b.
Proof. by destruct b. Qed.

Lemma xor_page_involutive (d : list byte) :
  xor_byte x5a <$> (xor_byte x5a <$> d) = d.
Proof.
  induction d as [|b d IH]; [done|].
  by rewrite !fmap_cons, xor_byte_involutive, IH.
Qed.

Lemma sample_codec (d : list byte) :
  ∃ c, EncryptPage d = inr c ∧ DecryptPage c = inr d.
Proof.
  exists (xor_byte x5a <$> d). split; [done|].
  exact (f_equal inr (xor_page_involutive d)).
Qed.

Lemma pages_after_Write_and_Close_witness :
  ∃ fs2 w2 fs3 w3,
    Writes (update (new_fs 4) 1 (λ i, set_busy i true))
      (mkFile [] 0 1 WriteOnly)
      [String.list_byte_of_string "hello "; String.list_byte_of_string "world"]
    = Done (fs2, w2, [(6, None); (5, None)])
    ∧ Buffer_Len (buf w2) < 4
    ∧ Close fs2 w2 = Done (fs3, w3, None)
    ∧ Z.of_nat (length (Pages (deref fs3 1))) = 3.
Proof.
  destruct (pages_after_Write_and_Close (new_fs 4) 1 WriteOnly
              [String.list_byte_of_string "hello ";
               String.list_byte_of_string "world"])
    as (fs1 & w1 & fs2 & w2 & fs3 & w3 & Hnew & HW & Hbuf & _ & HC & Hlen & _).
  - vm_compute. discriminate.
  - reflexivity.
  - reflexivity.
  - exact sample_codec.
  - exact pretty_nat_inj.
  - intros ? ? ?. reflexivity.
  - intros ?. reflexivity.
  - reflexivity.
  - injection Hnew as <- <-. exists fs2, w2, fs3, w3.
    split; [exact HW|]. split; [exact Hbuf|]. split; [exact HC|]. exact Hlen.
Defined.

Lemma round_trip_with_partial_last_page_witness :
  ∃ fs3 r',
    Size (deref fs3 1) = 11
    ∧ Read fs3 (mkFile [] 0 1 ReadOnly) 16 = Done (r', hello, Some io_EOF).
Proof.
  destruct (round_trip_with_partial_last_page (new_fs 4) 1 WriteOnly ReadOnly
              [hello])
    as (fs1 & w1 & fs2 & w2 & fs3 & w3 & r & _ & _ & _ & Hsize & Hnew & Hread).
  - vm_compute. discriminate.
  - reflexivity.
  - reflexivity.
  - reflexivity.
  - exact sample_codec.
  - exact pretty_nat_inj.
  - intros ? ? ?. reflexivity.
  - intros ?. reflexivity.
  - reflexivity.
  - reflexivity.
  - vm_compute. discriminate.
  - injection Hnew as <-. destruct (Hread 16%nat) as [r' Hr]. exists fs3, r'.
    split; [exact Hsize|exact Hr].
Defined.

Lemma whole_pages_leave_size_unset_witness :
  ∃ fs3 r,
    Size (deref fs3 1) = 0
    ∧ Read fs3 r 8 = Done (r, [], Some io_EOF).
Proof.
  destruct (whole_pages_leave_size_unset (new_fs 4) 1 WriteOnly ReadOnly
              [String.list_byte_of_string "abcd"])
    as (fs1 & w1 & fs2 & w2 & fs3 & w3 & r & _ & _ & _ & Hsize & _ & Hread).
  - vm_compute. discriminate.
  - reflexivity.
  - reflexivity.
  - reflexivity.
  - exact sample_codec.
  - exact pretty_nat_inj.
  - intros ? ? ?. reflexivity.
  - reflexivity.
  - reflexivity.
  - reflexivity.
  - reflexivity.
  - exists fs3, r. split; [exact Hsize|]. apply Hread. vm_compute. lia.
Defined.

Lemma permission_denied_witness :
  Read hello_fs (mkFile [] 0 1 WriteOnly) 4
  = Done (mkFile [] 0 1 WriteOnly, [], Some os_ErrPermission)
  ∧ Write hello_fs (mkFile [] 0 1 ReadOnly) hello
    = Done (hello_fs, mkFile [] 0 1 ReadOnly, 0, Some os_ErrPermission).
Proof.
  split.
  - apply (proj1 (permission_denied hello_fs (mkFile [] 0 1 WriteOnly))).
    vm_compute. discriminate.
  - apply (proj2 (permission_denied hello_fs (mkFile [] 0 1 ReadOnly))).
    reflexivity.
Defined.

(** C3, as stated, fails: on a file of 11 bytes the position 11 lies
    within [0, size], yet [Seek(11, io.SeekStart)] returns [io.EOF]. *)
Lemma Seek_to_size_is_rejected :
  seek_abs hello_fs (mkFile [] 0 1 ReadOnly) 11 io_SeekStart = Some 11
  ∧ 0 ≤ 11 ≤ Size (deref hello_fs 1)
  ∧ Seek hello_fs (mkFile [] 0 1 ReadOnly) 11 io_SeekStart
    = (mkFile [] 0 1 ReadOnly, 0, Some io_EOF).
Proof. vm_compute. intuition discriminate. Qed.

Lemma Seek_succeeds_iff_witness :
  Seek hello_fs (mkFile hello 9 1 ReadOnly) (-5) io_SeekCurrent
  = (mkFile [] 4 1 ReadOnly, 4, None).
Proof.
  apply (proj1 (proj2 (Seek_succeeds_iff hello_fs (mkFile hello 9 1 ReadOnly)
                         (-5) io_SeekCurrent))).
  vm_compute. intuition discriminate.
Defined.

(** C7, as stated, fails: a read handle that has been closed still
    reads. *)
Lemma Read_after_Close_succeeds :
  ('(fs, r) ← newFile hello_fs 1 ReadOnly;
   '(fs, r, err) ← Close fs r;
   '(r, data, err') ← Read fs r 5;
   Done (err, data, err'))
  = Done (None, String.list_byte_of_string "hello", None).
Proof. vm_compute. reflexivity. Qed.

Lemma Close_keeps_handle_usable_witness :
  Close hello_fs (mkFile [] 8 1 ReadOnly)
  = Done (update hello_fs 1 (λ i, set_busy i false),
          mkFile [] 0 1 ReadOnly, None)
  ∧ newFile (update hello_fs 1 (λ i, set_busy i false)) 1 ReadOnly
    = Done (update hello_fs 1 (λ i, set_busy i false), mkFile [] 0 1 ReadOnly).
Proof.
  destruct (proj2 (proj2 (Close_keeps_handle_usable hello_fs
                            (mkFile [] 8 1 ReadOnly))))
    as [Hclose Hnew]; [reflexivity|].
  split; [exact Hclose|]. apply Hnew. reflexivity.
Defined.

(** C5.  A write handle that has written exactly one page (4 bytes with
    page size 4) has an empty staging buffer when it is closed: [Close]
    returns no error, the page is stored, yet the size of the node stays 0
    and the tree has not been persisted. *)
Theorem Close_with_empty_buffer_leaves_size :
  ('(fs, w) ← newFile (new_fs 4) 1 WriteOnly;
   '(fs, w, n, err) ← Write fs w (String.list_byte_of_string "abcd");
   '(fs, w, err') ← Close fs w;
   Done (n, err, err', Size (deref fs 1), Pages (deref fs 1),
         busy (deref fs 1), persisted fs !! 1%positive))
  = Done (4, None, None, 0, ["0"%string], false, None).
Proof. vm_compute. reflexivity. Qed.

(** C1.  Four bytes written with page size 4 to a new file, the handle
    closed and the file reopened: the size reported is 0 and the first
    [Read] returns no byte and [io.EOF]. *)
Theorem round_trip_loses_whole_pages :
  ('(fs, w) ← newFile (new_fs 4) 1 WriteOnly;
   '(fs, w, n, err) ← Write fs w (String.list_byte_of_string "abcd");
   '(fs, w, err') ← Close fs w;
   '(fs, r) ← newFile fs 1 ReadOnly;
   '(r, data, err'') ← Read fs r 8;
   Done (n, err, err', Size (deref fs 1), data, err''))
  = Done (4, None, None, 0, [], Some io_EOF).
Proof. vm_compute. reflexivity. Qed.

(** C2.  On the file [hello world] with page size 4, [Seek(1,
    io.SeekStart)] succeeds and the [Read] of 2 bytes that follows loads
    page 0 and returns its first bytes [he], bytes [0, 2) of the content,
    where bytes [1, 3) are [el]; the offset moves on to 3. *)
Theorem Read_after_Seek_starts_at_page_start :
  (let '(r, pos, err) := Seek hello_fs (mkFile [] 0 1 ReadOnly) 1 io_SeekStart in
   '(r, data, err') ← Read hello_fs r 2;
   Done (pos, err, data, err', offset r))
  = Done (1, None, String.list_byte_of_string "he", None, 3)
  ∧ take 2 (drop 1 hello) = String.list_byte_of_string "el".
Proof. vm_compute. split; reflexivity. Qed.

(** *** More runs on sample data *)

Lemma hello_fs_holds : file_holds hello_fs 1 hello.
Proof.
  unfold file_holds. split_and!; try done.
  intros j Hj. destruct j as [|[|[|j]]].
  - exists "0"%string, (xor_byte x5a <$> String.list_byte_of_string "hell").
    split_and!; vm_compute; reflexivity.
  - exists "1"%string, (xor_byte x5a <$> String.list_byte_of_string "o wo").
    split_and!; vm_compute; reflexivity.
  - exists "2"%string, (xor_byte x5a <$> String.list_byte_of_string "rld").
    split_and!; vm_compute; reflexivity.
  - exfalso. change (Z.to_nat (pageSize hello_fs)) with 4%nat in Hj.
    change (length hello) with 11%nat in Hj. lia.
Qed.

Lemma Reads_return_consecutive_slices_witness :
  ∃ f', Reads hello_fs (mkFile [] 0 1 ReadOnly) [3%nat; 5%nat; 10%nat]
        = Done (f', [(String.list_byte_of_string "hel", None);
                     (String.list_byte_of_string "lo wo", None);
                     (String.list_byte_of_string "rld", Some io_EOF)]).
Proof.
  apply (Reads_return_consecutive_slices hello_fs 1 hello ReadOnly
           [3%nat; 5%nat; 10%nat] hello_fs_holds).
  reflexivity.
Defined.

Lemma Read_after_Seek_to_page_boundary_witness :
  ∃ f1 f2,
    Seek hello_fs (mkFile [] 0 1 ReadOnly) 4 io_SeekStart = (f1, 4, None)
    ∧ Read hello_fs f1 5
      = Done (f2, String.list_byte_of_string "o wor", None).
Proof.
  destruct (Read_after_Seek_to_page_boundary hello_fs 1 hello
              (mkFile [] 0 1 ReadOnly) 1 5)
    as (f1 & f2 & HS & HR).
  - exact hello_fs_holds.
  - reflexivity.
  - reflexivity.
  - vm_compute. lia.
  - exists f1, f2. split; [exact HS|exact HR].
Defined.

Lemma Read_after_Seek_starts_at_the_page_witness :
  ∃ f1 f2,
    Seek hello_fs (mkFile [] 0 1 ReadOnly) 5 io_SeekStart = (f1, 5, None)
    ∧ Read hello_fs f1 2 = Done (f2, String.list_byte_of_string "o ", None)
    ∧ offset f2 = 7.
Proof.
  destruct (Read_after_Seek_starts_at_the_page hello_fs 1 hello
              (mkFile [] 0 1 ReadOnly) 5 2)
    as (f1 & f2 & HS & HR & Ho).
  - exact hello_fs_holds.
  - reflexivity.
  - reflexivity.
  - vm_compute. lia.
  - vm_compute. lia.
  - exists f1, f2. split; [exact HS|]. split; [exact HR|exact Ho].
Defined.

Lemma Read_returns_all_or_EOF_witness :
  ∃ f' data e,
    Read hello_fs (mkFile [] 0 1 ReadOnly) 16 = Done (f', data, e)
    ∧ ((e = None ∧ length data = 16%nat)
       ∨ (e = Some io_EOF ∧ (length data < 16)%nat
          ∧ Size (deref hello_fs 1) ≤ offset f')).
Proof.
  apply (Read_returns_all_or_EOF hello_fs 1 hello (mkFile [] 0 1 ReadOnly) 16
           hello_fs_holds).
  - reflexivity.
  - reflexivity.
  - simpl. lia.
  - simpl. lia.
Defined.

Lemma round_trip_in_chunks_witness :
  ∃ fs3 w3 r',
    write_file (new_fs 4) 1 WriteOnly
      [String.list_byte_of_string "hello "; String.list_byte_of_string "world"]
    = Done (fs3, w3, [(6, None); (5, None)], None)
    ∧ file_holds fs3 1 hello
    ∧ newFile fs3 1 ReadOnly = Done (fs3, mkFile [] 0 1 ReadOnly)
    ∧ Reads fs3 (mkFile [] 0 1 ReadOnly) [3%nat; 5%nat; 10%nat]
      = Done (r', [(String.list_byte_of_string "hel", None);
                   (String.list_byte_of_string "lo wo", None);
                   (String.list_byte_of_string "rld", Some io_EOF)]).
Proof.
  apply (round_trip_in_chunks (new_fs 4) 1 WriteOnly ReadOnly
           [String.list_byte_of_string "hello ";
            String.list_byte_of_string "world"]
           [3%nat; 5%nat; 10%nat]).
  - vm_compute. discriminate.
  - reflexivity.
  - reflexivity.
  - reflexivity.
  - exact sample_codec.
  - exact pretty_nat_inj.
  - intros ? ? ?. reflexivity.
  - intros ?. reflexivity.
  - reflexivity.
  - reflexivity.
  - vm_compute. discriminate.
Defined.

Lemma Write_and_Close_return_witness :
  (∃ fs' f' n err,
     Write (new_fs 4) (mkFile [] 0 1 WriteOnly) hello = Done (fs', f', n, err)
     ∧ 0 ≤ n ≤ 11
     ∧ (err = None → n = 11))
  ∧ (∃ fs' f' err,
       Close (new_fs 4) (mkFile [] 0 1 WriteOnly) = Done (fs', f', err)).
Proof.
  apply (Write_and_Close_return (new_fs 4) (mkFile [] 0 1 WriteOnly) hello).
  reflexivity.
Defined.

Lemma overwrite_is_write_to_truncated_witness :
  write_file hello_fs 1 WriteOnly [String.list_byte_of_string "bye"]
  = write_file (update hello_fs 1 truncate) 1 WriteOnly
      [String.list_byte_of_string "bye"].
Proof.
  apply (overwrite_is_write_to_truncated hello_fs 1 WriteOnly
           [String.list_byte_of_string "bye"]).
  - vm_compute. discriminate.
  - reflexivity.
  - vm_compute. discriminate.
Defined.

Lemma write_nothing_keeps_content_witness :
  write_file hello_fs 1 WriteOnly [[]; []]
  = Done (update hello_fs 1 (λ i, set_busy i false),
          mkFile [] 0 1 WriteOnly, [(0, None); (0, None)], None).
Proof.
  apply (write_nothing_keeps_content hello_fs 1 WriteOnly [[]; []]).
  - vm_compute. discriminate.
  - reflexivity.
  - reflexivity.
Defined.

Lemma thumbnail_round_trip_witness :
  ∃ fs' th',
    WriteThumbnail hello_fs ∅ (mkFile [] 0 1 WriteOnly)
      (String.list_byte_of_string "thumb")
    = (fs', th', None)
    ∧ Thumbnail th' 1 = "3"%string
    ∧ ReadThumbnail fs' th' (mkFile [] 0 1 ReadOnly)
      = (String.list_byte_of_string "thumb", None).
Proof.
  destruct (thumbnail_round_trip hello_fs ∅ (mkFile [] 0 1 WriteOnly)
              (mkFile [] 0 1 ReadOnly) (String.list_byte_of_string "thumb")
              (xor_byte x5a <$> String.list_byte_of_string "thumb"))
    as (fs' & th' & HW & HT & HR).
  - reflexivity.
  - vm_compute. reflexivity.
  - intros ? ? ?. reflexivity.
  - intros ?. reflexivity.
  - vm_compute. discriminate.
  - reflexivity.
  - exists fs', th'. split; [exact HW|]. split; [|exact HR].
    simpl in HT. rewrite HT. vm_compute. reflexivity.
Defined.

Lemma thumbnail_rewrite_reuses_key_witness :
  ∃ fs1 th1 fs2,
    WriteThumbnail hello_fs ∅ (mkFile [] 0 1 WriteOnly)
      (String.list_byte_of_string "thumb")
    = (fs1, th1, None)
    ∧ WriteThumbnail fs1 th1 (mkFile [] 0 1 WriteOnly)
        (String.list_byte_of_string "nail")
      = (fs2, th1, None)
    ∧ uuids fs2 = uuids fs1
    ∧ dom (storage fs2) = dom (storage fs1)
    ∧ ReadThumbnail fs2 th1 (mkFile [] 0 1 WriteOnly)
      = (String.list_byte_of_string "nail", None).
Proof.
  apply (thumbnail_rewrite_reuses_key hello_fs ∅ (mkFile [] 0 1 WriteOnly)
           (String.list_byte_of_string "thumb")
           (String.list_byte_of_string "nail")
           (xor_byte x5a <$> String.list_byte_of_string "thumb")
           (xor_byte x5a <$> String.list_byte_of_string "nail")).
  - reflexivity.
  - reflexivity.
  - vm_compute. reflexivity.
  - intros ? ? ?. reflexivity.
  - intros ?. reflexivity.
  - vm_compute. discriminate.
Defined.

Lemma WriteThumbnail_keeps_content_witness :
  file_holds
    (WriteThumbnail hello_fs ∅ (mkFile [] 0 1 WriteOnly)
       (String.list_byte_of_string "thumb")).1.1 1 hello.
Proof.
  apply (WriteThumbnail_keeps_content hello_fs ∅ (mkFile [] 0 1 WriteOnly)
           (String.list_byte_of_string "thumb") 1 hello).
  - exact hello_fs_holds.
  - apply (bool_decide_unpack _). vm_compute. exact I.
Defined.

Lemma Read_directory_listing_witness :
  Read (ext := listing) dir_fs (mkFile [] 6 1 ReadOnly) 4
  = Done (mkFile [] 10 1 ReadOnly, String.list_byte_of_string ",{}]",
          Some io_EOF).
Proof.
  apply (Read_directory_listing (ext := listing) dir_fs
           (mkFile [] 6 1 ReadOnly) 6 4).
  - reflexivity.
  - reflexivity.
  - reflexivity.
  - reflexivity.
  - reflexivity.
  - vm_compute. lia.
Defined.

Lemma Seek_fails_on_empty_file_witness :
  ∃ pos err,
    Seek (new_fs 4) (mkFile [] 0 1 ReadOnly) 0 io_SeekStart
    = (mkFile [] 0 1 ReadOnly, pos, Some err).
Proof.
  apply (Seek_fails_on_empty_file (new_fs 4) (mkFile [] 0 1 ReadOnly) 0
           io_SeekStart).
  - reflexivity.
  - reflexivity.
  - simpl. lia.
Defined.

Lemma Write_drops_page_when_encryption_fails_witness :
  ∃ fs',
    Write (ext := no_key) (new_fs 4) (mkFile [] 0 1 WriteOnly) hello
    = Done (fs', mkFile (String.list_byte_of_string "o world") 4 1 WriteOnly,
            4, Some (fmt_Errorf_w "encrypt: %w" (errors_New "no key")))
    ∧ storage fs' = storage (new_fs 4)
    ∧ uuids fs' = 1%nat
    ∧ Pages (deref fs' 1) = [].
Proof.
  apply (Write_drops_page_when_encryption_fails (ext := no_key) (new_fs 4)
           (mkFile [] 0 1 WriteOnly) hello (errors_New "no key")).
  - vm_compute. discriminate.
  - reflexivity.
  - vm_compute. lia.
  - reflexivity.
Defined.

Lemma Read_missing_page_is_EOF_witness :
  Read (update hello_fs 1 (λ i, addPage (setSize i 15) "9"))
    (mkFile [] 12 1 ReadOnly) 4
  = Done (mkFile [] 12 1 ReadOnly, [], Some io_EOF).
Proof.
  apply (Read_missing_page_is_EOF
           (update hello_fs 1 (λ i, addPage (setSize i 15) "9"))
           (mkFile [] 12 1 ReadOnly) 4 "9").
  - reflexivity.
  - vm_compute. reflexivity.
  - reflexivity.
  - reflexivity.
  - vm_compute. split; [discriminate|reflexivity].
  - reflexivity.
  - lia.
  - vm_compute. reflexivity.
  - vm_compute. reflexivity.
Defined.

Lemma Read_returns_decrypt_error_witness :
  Read (ext := no_key) hello_fs (mkFile [] 0 1 ReadOnly) 4
  = Done (mkFile [] 0 1 ReadOnly, [],
          Some (fmt_Errorf_w "decrypt: %w" (errors_New "no key"))).
Proof.
  apply (Read_returns_decrypt_error (ext := no_key) hello_fs
           (mkFile [] 0 1 ReadOnly) 4 "0"
           (xor_byte x5a <$> String.list_byte_of_string "hell")
           (errors_New "no key")).
  - reflexivity.
  - vm_compute. reflexivity.
  - reflexivity.
  - reflexivity.
  - vm_compute. split; [discriminate|reflexivity].
  - reflexivity.
  - lia.
  - vm_compute. reflexivity.
  - vm_compute. reflexivity.
  - reflexivity.
Defined.

Lemma Read_panics_past_the_pages_witness :
  Read (update hello_fs 1 (λ i, setSize i 15)) (mkFile [] 12 1 ReadOnly) 4
  = Panic "index out of range".
Proof.
  apply (Read_panics_past_the_pages (update hello_fs 1 (λ i, setSize i 15))
           (mkFile [] 12 1 ReadOnly) 4).
  - reflexivity.
  - vm_compute. reflexivity.
  - reflexivity.
  - reflexivity.
  - vm_compute. split; [discriminate|reflexivity].
  - reflexivity.
  - lia.
  - vm_compute. discriminate.
Defined.


Lemma Write_loses_page_when_Put_fails_witness :
  ∃ fs',
    Write (ext := full_store) (new_fs 4) (mkFile [] 0 1 WriteOnly) hello
    = Done (fs', mkFile (String.list_byte_of_string "o world") 4 1 WriteOnly,
            4, Some (fmt_Errorf_w "put: %w" (errors_New "store is full")))
    ∧ storage fs' = storage (new_fs 4)
    ∧ Pages (deref fs' 1) = [].
Proof.
  apply (Write_loses_page_when_Put_fails (ext := full_store) (new_fs 4)
           (mkFile [] 0 1 WriteOnly) hello
           (xor_byte x5a <$> String.list_byte_of_string "hell")
           (errors_New "store is full")).
  - vm_compute. discriminate.
  - reflexivity.
  - vm_compute. lia.
  - reflexivity.
  - intros ? ?. reflexivity.
Defined.

Lemma Close_returns_SaveFileTree_error_witness :
  ∃ fs',
    Close (ext := stale_tree) (new_fs 4)
      (mkFile (String.list_byte_of_string "abc") 0 1 WriteOnly)
    = Done (fs', mkFile [] 3 1 WriteOnly,
            Some (fmt_Errorf_w "save file info list: %w"
                    (errors_New "snapshot not written")))
    ∧ persisted fs' = persisted (new_fs 4)
    ∧ storage fs'
      = <["0"%string := xor_byte x5a <$> String.list_byte_of_string "abc"]>
          (storage (new_fs 4))
    ∧ Size (deref fs' 1) = 3
    ∧ busy (deref fs' 1) = false.
Proof.
  apply (Close_returns_SaveFileTree_error (ext := stale_tree) (new_fs 4)
           (mkFile (String.list_byte_of_string "abc") 0 1 WriteOnly)
           (xor_byte x5a <$> String.list_byte_of_string "abc")
           (errors_New "snapshot not written")).
  - vm_compute. discriminate.
  - reflexivity.
  - discriminate.
  - vm_compute. lia.
  - reflexivity.
  - intros ? ?. reflexivity.
  - intros ?. reflexivity.
Defined.

End vfs.
